(** * get_dazai_writings.py: a shallow embedding and its verification

    The script downloads a fixed list of Aozora Bunko archives, cleans the
    text of each one with [clean_aozora_text] and writes the cleaned works
    to one corpus file.

    A Python [str] is a sequence of Unicode code points: it is modelled as
    a [list N].  Exceptions are modelled by the [result] type, console
    output and the written file by an explicit trace of events. *)

From Stdlib Require Import List NArith Arith Bool Lia String Ascii.
From Stdlib Require Import DecimalString.
Import ListNotations.

Set Implicit Arguments.

(** ** Python strings *)

Module PyStr.

Definition char := N.
Definition str := list char.

Definition str_eq_dec : forall a b : str, {a = b} + {a <> b} :=
  list_eq_dec N.eq_dec.

(** An ASCII literal of the source, as code points. *)
Definition lit (s : string) : str :=
  map N_of_ascii (list_ascii_of_string s).

Definition LF : char := 10%N.
Definition SPACE : char := 32%N.

(** [prefix.startswith] *)
Fixpoint startswith (prefix s : str) : bool :=
  match prefix, s with
  | [], _ => true
  | _ :: _, [] => false
  | p :: prefix', c :: s' => N.eqb p c && startswith prefix' s'
  end.

(** [s.endswith(suffix)] *)
Definition endswith (suffix s : str) : bool :=
  startswith (rev suffix) (rev s).

(** [pat in s] *)
Fixpoint contains (pat s : str) : bool :=
  startswith pat s ||
  match s with
  | [] => false
  | _ :: s' => contains pat s'
  end.

(** [s.split(sep)] for a separator of one character. *)
Fixpoint split (sep : char) (s : str) : list str :=
  match s with
  | [] => [[]]
  | c :: s' =>
      if N.eqb c sep then [] :: split sep s'
      else match split sep s' with
           | l :: ls => (c :: l) :: ls
           | [] => [[c]]
           end
  end.

(** [sep.join(ls)] *)
Fixpoint join (sep : str) (ls : list str) : str :=
  match ls with
  | [] => []
  | l :: ls' =>
      match ls' with
      | [] => l
      | _ :: _ => l ++ sep ++ join sep ls'
      end
  end.

(** [s.replace(a, b)] for single characters. *)
Definition replace (a b : char) (s : str) : str :=
  map (fun c => if N.eqb c a then b else c) s.

(** [c.isspace()]: the white space of Unicode as CPython tabulates it. *)
Definition isspace (c : char) : bool :=
  ((9 <=? c) && (c <=? 13) || (28 <=? c) && (c <=? 32)
   || (c =? 0x85) || (c =? 0xA0) || (c =? 0x1680)
   || (0x2000 <=? c) && (c <=? 0x200A)
   || (c =? 0x2028) || (c =? 0x2029) || (c =? 0x202F)
   || (c =? 0x205F) || (c =? 0x3000))%N.

(** [s.lstrip()] *)
Fixpoint lstrip (s : str) : str :=
  match s with
  | [] => []
  | c :: s' => if isspace c then lstrip s' else s
  end.

(** [s.rstrip()] *)
Fixpoint rstrip (s : str) : str :=
  match s with
  | [] => []
  | c :: s' =>
      match rstrip s' with
      | [] => if isspace c then [] else [c]
      | r => c :: r
      end
  end.

(** [s.strip()] *)
Definition strip (s : str) : str := rstrip (lstrip s).

(** Truth value of a string: non-empty. *)
Definition truthy (s : str) : bool :=
  match s with [] => false | _ :: _ => true end.

(** [ls[a:b]] for indices that are not negative. *)
Definition slice {A : Type} (a b : nat) (ls : list A) : list A :=
  skipn a (firstn b ls).

(** [str(n)] for a number that is not negative. *)
Definition str_of_nat (n : nat) : str :=
  lit (NilEmpty.string_of_uint (Nat.to_uint n)).

End PyStr.

Import PyStr.

(** ** Exceptions *)

Inductive exn : Type :=
| UnboundLocalError
| RequestException (msg : str)
| HTTPError (msg : str)
| BadZipFile (msg : str)
| ZipReadError (msg : str)
| UnicodeDecodeError (msg : str).

Inductive result (A : Type) : Type :=
| Ok (a : A)
| Raise (e : exn).

Arguments Ok {A} a.
Arguments Raise {A} e.

(** ** The characters and strings of the cleaner *)

Definition RUBY_OPEN : char := 0x300A%N.     (* left double angle bracket *)
Definition RUBY_CLOSE : char := 0x300B%N.    (* right double angle bracket *)
Definition NOTE_OPEN : char := 0xFF3B%N.     (* fullwidth left square bracket *)
Definition NOTE_SHARP : char := 0xFF03%N.    (* fullwidth number sign *)
Definition NOTE_CLOSE : char := 0xFF3D%N.    (* fullwidth right square bracket *)
Definition RUBY_BAR : char := 0xFF5C%N.      (* fullwidth vertical line *)

(** The two prefixes of the colophon, [teihon:] and [teihon no oyahon:]
    with a fullwidth colon. *)
Definition COLOPHON : str := [0x5E95; 0x672C; 0xFF1A]%N.
Definition COLOPHON_PARENT : str :=
  [0x5E95; 0x672C; 0x306E; 0x89AA; 0x672C; 0xFF1A]%N.

(** The rule of hyphens that delimits the header, as the source writes it. *)
Definition SEPARATOR : str :=
  lit "-------------------------------------------------------".

(** ** Regular expressions of the cleaner

    Both patterns of the source have the shape [OPEN [^CLOSE]+ CLOSE]: a
    literal prefix, one or more characters other than the closing one,
    then the closing character. *)

(** The longest run of characters other than [cls] at the head of [s],
    and what follows it. *)
Fixpoint span_run (cls : char) (s : str) : str * str :=
  match s with
  | [] => ([], [])
  | c :: s' =>
      if N.eqb c cls then ([], s)
      else let (run, rest) := span_run cls s' in (c :: run, rest)
  end.

(** After the literal prefix: the greedy class takes the longest run; a
    shorter one is followed by a character of the run, which is not the
    closing one, so backtracking never finds another match. *)
Definition match_body (cls : char) (s : str) : option str :=
  match span_run cls s with
  | (_ :: _, c :: rest) => if N.eqb c cls then Some rest else None
  | _ => None
  end.

Fixpoint strip_prefix (prefix s : str) : option str :=
  match prefix, s with
  | [], _ => Some s
  | _ :: _, [] => None
  | p :: prefix', c :: s' =>
      if N.eqb p c then strip_prefix prefix' s' else None
  end.

(** A match of the pattern at the head of [s]: what is left after it. *)
Definition match_span (opn : str) (cls : char) (s : str) : option str :=
  match strip_prefix opn s with
  | Some body => match_body cls body
  | None => None
  end.

(** [re.sub(pattern, "", s)]: leftmost matches, none overlapping. *)
Fixpoint sub_span_fuel (fuel : nat) (opn : str) (cls : char) (s : str) : str :=
  match fuel with
  | O => s
  | S fuel' =>
      match s with
      | [] => []
      | c :: s' =>
          match match_span opn cls s with
          | Some rest => sub_span_fuel fuel' opn cls rest
          | None => c :: sub_span_fuel fuel' opn cls s'
          end
      end
  end.

Definition sub_span (opn : str) (cls : char) (s : str) : str :=
  sub_span_fuel (List.length s) opn cls s.

(** [re.sub(c, "", s)] for a pattern of one literal character. *)
Definition sub_char (c : char) (s : str) : str :=
  filter (fun x => negb (N.eqb x c)) s.

(** ** clean_aozora_text *)

(** The local variables of the function that the two loops share. *)
Record locals : Type := mkLocals {
  separator_count : nat;
  start_idx : nat;
  end_idx : nat;
  line : option str   (* [None]: not bound yet *)
}.

Definition is_rule (l : str) : bool := contains SEPARATOR l.

Definition is_colophon (l : str) : bool :=
  startswith COLOPHON l || startswith COLOPHON_PARENT l.

(** [for i, line in enumerate(lines)]: the header scan, from index [i]. *)
Fixpoint header_loop (i : nat) (lines : list str) (st : locals) : locals :=
  match lines with
  | [] => st
  | l :: rest =>
      let st := mkLocals (separator_count st) (start_idx st) (end_idx st) (Some l) in
      if is_rule l then
        let st := mkLocals (S (separator_count st)) (start_idx st) (end_idx st) (line st) in
        if Nat.eqb (separator_count st) 2 then
          mkLocals (separator_count st) (i + 1) (end_idx st) (line st)   (* break *)
        else header_loop (S i) rest st
      else header_loop (S i) rest st
  end.

(** [for i in range(start_idx, len(lines))]: the footer scan over the
    indices [idxs].  Its test reads the variable [line]; the loop binds
    only [i]. *)
Fixpoint footer_loop (idxs : list nat) (st : locals) : result locals :=
  match idxs with
  | [] => Ok st
  | i :: rest =>
      match line st with
      | None => Raise UnboundLocalError
      | Some l =>
          if is_colophon l then
            Ok (mkLocals (separator_count st) (start_idx st) i (line st))   (* break *)
          else footer_loop rest st
      end
  end.

Definition range (a b : nat) : list nat := seq a (b - a).

(** The three substitutions. *)
Definition strip_markup (text : str) : str :=
  let text := sub_span [RUBY_OPEN] RUBY_CLOSE text in
  let text := sub_span [NOTE_OPEN; NOTE_SHARP] NOTE_CLOSE text in
  sub_char RUBY_BAR text.

(** The locals after both scans and the fallback on [start_idx]. *)
Definition scan (lines : list str) : result locals :=
  let st := mkLocals 0 0 (List.length lines) None in
  let st := header_loop 0 lines st in
  match footer_loop (range (start_idx st) (List.length lines)) st with
  | Raise e => Raise e
  | Ok st =>
      Ok (if separator_count st <? 2
          then mkLocals (separator_count st) 0 (end_idx st) (line st)
          else st)
  end.

(** The lines kept, each one right-trimmed, joined again. *)
Definition join_lines (cleaned_lines : list str) : str :=
  join [LF] (map rstrip (filter (fun l => truthy (strip l)) cleaned_lines)).

Definition clean_aozora_text (text : str) : result str :=
  let text := strip_markup text in
  let lines := split LF text in
  match scan lines with
  | Raise e => Raise e
  | Ok st =>
      let cleaned_lines := slice (start_idx st) (end_idx st) lines in
      Ok (join_lines cleaned_lines)
  end.

(** ** The environment: network, archives, codec

    The script reaches the network through [requests], opens the archive
    with [zipfile] and decodes with a codec of the interpreter.  What these
    calls answer is given by a [World]. *)

Definition bytes := list Byte.byte.

Record Response : Type := mkResponse {
  status_code : nat;
  content : bytes
}.

(** [zipfile.ZipFile]: the names in archive order, and what reading the
    entry of a name gives. *)
Record Archive : Type := mkArchive {
  namelist : list str;
  read : str -> result bytes
}.

(** One step of a codec at the head of a non-empty input [b :: rest]:
    either a character, with the number of further bytes it took from
    [rest], or an invalid sequence, with the number of further bytes of
    [rest] that belong to it. *)
Inductive decode_step : Type :=
| Decoded (c : char) (more : nat)
| Invalid (more : nat).

Record World : Type := mkWorld {
  requests_get : str -> result Response;
  zip_open : bytes -> result Archive;
  shift_jis : Byte.byte -> bytes -> decode_step;
  str_of_exn : exn -> str
}.

(** [response.raise_for_status()]: the client and server error classes. *)
Definition raise_for_status (response : Response) : result unit :=
  if (400 <=? status_code response) && (status_code response <? 600)
  then Raise (HTTPError (str_of_nat (status_code response)))
  else Ok tt.

(** The [errors] argument of [bytes.decode]. *)
Inductive error_handler : Type := Strict | Ignore.

(** [raw.decode(codec, errors)]: the codec is applied step by step; at an
    invalid sequence the strict handler raises and the ignoring handler
    resumes after it.  [skip] counts the bytes that the last step still
    has to pass over. *)
Fixpoint decode_from (step : Byte.byte -> bytes -> decode_step)
    (errors : error_handler) (skip : nat) (raw : bytes) : result str :=
  match raw with
  | [] => Ok []
  | b :: rest =>
      match skip with
      | S skip' => decode_from step errors skip' rest
      | O =>
          match step b rest with
          | Decoded c more =>
              match decode_from step errors more rest with
              | Ok s => Ok (c :: s)
              | Raise e => Raise e
              end
          | Invalid more =>
              match errors with
              | Strict => Raise (UnicodeDecodeError [])
              | Ignore => decode_from step errors more rest
              end
          end
      end
  end.

Definition decode (W : World) (errors : error_handler) (raw : bytes) : result str :=
  decode_from (shift_jis W) errors 0 raw.

(** ** Effects: console and file *)

Inductive event : Type :=
| Printed (text : str)                      (* text written to the console *)
| Written (path : str) (contents : str) (* a file opened with "w" and written *).

Definition trace := list event.

(** Computations that print and write, and may raise. *)
Definition M (A : Type) : Type := trace -> result A * trace.

Definition ret {A : Type} (a : A) : M A := fun t => (Ok a, t).

Definition bind {A B : Type} (m : M A) (k : A -> M B) : M B :=
  fun t =>
    match m t with
    | (Ok a, t') => k a t'
    | (Raise e, t') => (Raise e, t')
    end.

Definition lift {A : Type} (r : result A) : M A := fun t => (r, t).

(** [try: body except Exception as e: handler] *)
Definition try_except {A : Type} (body : M A) (handler : exn -> M A) : M A :=
  fun t =>
    match body t with
    | (Ok a, t') => (Ok a, t')
    | (Raise e, t') => handler e t'
    end.

Declare Scope py_scope.
Delimit Scope py_scope with py.
Notation "x <- m ;; k" := (bind m (fun x => k))
  (at level 100, m at next level, right associativity) : py_scope.
Notation "m ;; k" := (bind m (fun _ => k))
  (at level 100, right associativity) : py_scope.
Open Scope py_scope.

(** [print(text, end=e)] *)
Definition print_end (text e : str) : M unit :=
  fun t => (Ok tt, t ++ [Printed (text ++ e)]).

(** [print(text)] *)
Definition print (text : str) : M unit := print_end text [LF].

(** [with open(path, "w") as f: f.write(contents)] *)
Definition write_file (path contents : str) : M unit :=
  fun t => (Ok tt, t ++ [Written path contents]).

(** Binding in the [result] type, for the body of the [try]. *)
Definition rbind {A B : Type} (r : result A) (k : A -> result B) : result B :=
  match r with
  | Ok a => k a
  | Raise e => Raise e
  end.

(** ** download_and_process_aozora *)

(** The body of the [try] block; it prints nothing. *)
Definition fetch_and_clean (W : World) (url : str) : result str :=
  rbind (requests_get W url) (fun response =>
  rbind (raise_for_status response) (fun _ =>
  rbind (zip_open W (content response)) (fun z =>
  let text_files := filter (endswith (lit ".txt")) (namelist z) in
  match text_files with
  | [] => Ok []
  | text_filename :: _ =>
      rbind (read z text_filename) (fun raw =>
      rbind (decode W Ignore raw) (fun raw_text =>
      clean_aozora_text raw_text))
  end))).

Definition download_and_process_aozora (W : World) (url : str) : M str :=
  try_except (lift (fetch_and_clean W url))
    (fun e =>
       print (lit "Error processing " ++ url ++ lit ": " ++ str_of_exn W e) ;;
       ret []).

(** ** main *)

Definition dazai_urls : list str := [
  lit "https://www.aozora.gr.jp/cards/000035/files/301_ruby_5915.zip";
  lit "https://www.aozora.gr.jp/cards/000035/files/1567_ruby_4948.zip";
  lit "https://www.aozora.gr.jp/cards/000035/files/1565_ruby_8220.zip";
  lit "https://www.aozora.gr.jp/cards/000035/files/2253_ruby_1031.zip";
  lit "https://www.aozora.gr.jp/cards/000035/files/275_ruby_1532.zip";
  lit "https://www.aozora.gr.jp/cards/000035/files/277_ruby_33097.zip";
  lit "https://www.aozora.gr.jp/cards/000035/files/270_ruby_1164.zip";
  lit "https://www.aozora.gr.jp/cards/000035/files/246_ruby_1636.zip";
  lit "https://www.aozora.gr.jp/cards/000035/files/2282_ruby_1996.zip"
].

Definition OUTPUT_FILE : str := lit "dazai_corpus.txt".

Definition SLASH : char := 47%N.

(** [url.split("/")[-1]] *)
Definition filename_of (url : str) : str := last (split SLASH url) [].

(** The body of the loop of [main] for one [url]; the accumulator is
    passed through. *)
Definition process_url (W : World) (full_corpus : list str) (url : str)
  : M (list str) :=
  let filename := filename_of url in
  print_end (lit "Processing: " ++ filename ++ lit " ...") [] ;;
  text <- download_and_process_aozora W url ;;
  if truthy text then
    let full_corpus := full_corpus ++ [text] in
    print (lit " Done.") ;;
    let sample_text := replace LF SPACE (firstn 50 text) in
    print (lit "--- Sample: " ++ sample_text ++ lit "... ---") ;;
    ret full_corpus
  else
    print (lit " Failed.") ;;
    ret full_corpus.

Fixpoint for_urls (W : World) (urls : list str) (full_corpus : list str)
  : M (list str) :=
  match urls with
  | [] => ret full_corpus
  | url :: rest =>
      full_corpus <- process_url W full_corpus url ;;
      for_urls W rest full_corpus
  end.

(** [main] over a list of sources. *)
Definition main_on (W : World) (urls : list str) : M unit :=
  print (lit "Starting download and processing of "
         ++ str_of_nat (List.length urls) ++ lit " works...") ;;
  full_corpus <- for_urls W urls [] ;;
  match full_corpus with
  | _ :: _ =>
      write_file OUTPUT_FILE (join [LF; LF] full_corpus) ;;
      let total_chars := list_sum (map (@List.length char) full_corpus) in
      print ([LF] ++ lit "Completed! Saved to " ++ OUTPUT_FILE) ;;
      print (lit "Total characters: " ++ str_of_nat total_chars)
  | [] =>
      print ([LF] ++ lit "No text data extracted.")
  end.

Definition main (W : World) : M unit := main_on W dazai_urls.

(** What a run leaves of the trace. *)
Definition run {A : Type} (m : M A) : result A * trace := m [].

(** The contents of the file at [path] after the events of [t]. *)
Fixpoint file_after (path : str) (t : trace) (before : option str) : option str :=
  match t with
  | [] => before
  | Printed _ :: t' => file_after path t' before
  | Written p c :: t' =>
      file_after path t' (if str_eq_dec p path then Some c else before)
  end.

Definition console (t : trace) : list str :=
  flat_map (fun e => match e with Printed s => [s] | Written _ _ => [] end) t.

(** ** Notions used in the statements *)

Definition count_rules (lines : list str) : nat :=
  List.length (filter is_rule lines).

(** The locals before the scans. *)
Definition locals0 (lines : list str) : locals :=
  mkLocals 0 0 (List.length lines) None.

Definition HYPHEN : char := 45%N.
Definition RULE : str := SEPARATOR.

(** Lines joined by newlines: a text. *)
Definition text_of (lines : list str) : str := join [LF] lines.

Definition starts_with_close (s : str) : Prop :=
  exists s', s = RUBY_CLOSE :: s'.



Definition no_close (l : str) : Prop := ~ In RUBY_CLOSE l.

(** [ruby_ok] for a line [l] of a text whose later lines are [later]. *)
Fixpoint line_ok (l : str) (later : list str) : Prop :=
  match l with
  | [] => True
  | c :: t =>
      (c = RUBY_OPEN ->
       starts_with_close t \/ (no_close t /\ Forall no_close later))
      /\ line_ok t later
  end.



(** The text that one source yields: what the [try] body returns, or the
    empty string after an exception. *)
Definition text_of_source (W : World) (url : str) : str :=
  match fetch_and_clean W url with
  | Ok s => s
  | Raise _ => []
  end.

(** What [download_and_process_aozora] prints. *)
Definition download_log (W : World) (url : str) : trace :=
  match fetch_and_clean W url with
  | Ok _ => []
  | Raise e =>
      [Printed (lit "Error processing " ++ url ++ lit ": " ++ str_of_exn W e ++ [LF])]
  end.

Definition processing_line (url : str) : event :=
  Printed (lit "Processing: " ++ filename_of url ++ lit " ...").

Definition failed_line : event := Printed (lit " Failed." ++ [LF]).

(** The events of one turn of the loop of [main]. *)
Definition url_events (W : World) (url : str) : trace :=
  processing_line url :: download_log W url ++
  (if truthy (text_of_source W url)
   then [Printed (lit " Done." ++ [LF]);
         Printed ((lit "--- Sample: "
                 ++ replace LF SPACE (firstn 50 (text_of_source W url))
                 ++ lit "... ---") ++ [LF])]
   else [failed_line]).

(** The files written, in order. *)
Definition file_writes (t : trace) : list (str * str) :=
  flat_map (fun e => match e with
                     | Printed _ => []
                     | Written p c => [(p, c)]
                     end) t.

(** The failures local to one source. *)
Definition transport_error (W : World) (url : str) : Prop :=
  exists e, requests_get W url = Raise e.

Definition http_error (W : World) (url : str) : Prop :=
  exists response, requests_get W url = Ok response /\
    400 <= status_code response < 600.

Definition no_text_entry (W : World) (url : str) : Prop :=
  exists response z, requests_get W url = Ok response /\
    raise_for_status response = Ok tt /\
    zip_open W (content response) = Ok z /\
    Forall (fun name => endswith (lit ".txt") name = false) (namelist z).

Definition local_failure (W : World) (url : str) : Prop :=
  transport_error W url \/ http_error W url \/ no_text_entry W url.

(** The events after the loop. *)
Definition closing_events (full_corpus : list str) : trace :=
  match full_corpus with
  | _ :: _ =>
      [Written OUTPUT_FILE (join [LF; LF] full_corpus);
       Printed (([LF] ++ lit "Completed! Saved to " ++ OUTPUT_FILE) ++ [LF]);
       Printed ((lit "Total characters: "
               ++ str_of_nat (list_sum (map (@List.length char) full_corpus)))
              ++ [LF])]
  | [] => [Printed (([LF] ++ lit "No text data extracted.") ++ [LF])]
  end.

Definition opening_event (urls : list str) : event :=
  Printed ((lit "Starting download and processing of "
          ++ str_of_nat (List.length urls) ++ lit " works...") ++ [LF]).

Definition is_print (e : event) : Prop :=
  match e with Printed _ => True | Written _ _ => False end.

Definition demo_codec (b : Byte.byte) (rest : bytes) : decode_step :=
  if (Byte.to_N b <? 128)%N then Decoded (Byte.to_N b) 0 else Invalid 0.

Definition demo_get (url : str) : result Response :=
  if str_eq_dec url (lit "http://host/work.zip")
  then Ok (mkResponse 200 [Byte.x01])
  else if str_eq_dec url (lit "http://host/blank.zip")
  then Ok (mkResponse 200 [Byte.x02])
  else if str_eq_dec url (lit "http://host/cover.zip")
  then Ok (mkResponse 200 [Byte.x03])
  else if str_eq_dec url (lit "http://host/missing.zip")
  then Ok (mkResponse 404 [])
  else Raise (RequestException (lit "connection refused")).

Definition demo_zip (data : bytes) : result Archive :=
  match data with
  | [Byte.x01] =>
      Ok (mkArchive [lit "readme.md"; lit "work.txt"]
            (fun _ => Ok (list_byte_of_string "work" ++ [Byte.xff; Byte.x0a]
                          ++ list_byte_of_string "text")))
  | [Byte.x02] =>
      Ok (mkArchive [lit "blank.txt"] (fun _ => Ok [Byte.x20; Byte.x0a]))
  | [Byte.x03] =>
      Ok (mkArchive [lit "cover.png"] (fun _ => Raise (ZipReadError [])))
  | _ => Raise (BadZipFile (lit "not a zip file"))
  end.

Definition demo_world : World :=
  mkWorld demo_get demo_zip demo_codec (fun _ => lit "error").

(** ** Further notions *)

(** [out] is [s] with some characters (or items) left out. *)
Inductive subseq {A : Type} : list A -> list A -> Prop :=
| subseq_nil : subseq [] []
| subseq_skip (x : A) (out s : list A) : subseq out s -> subseq out (x :: s)
| subseq_keep (x : A) (out s : list A) : subseq out s -> subseq (x :: out) (x :: s).

(** A character that is no white space. *)
Definition nonspace (c : char) : bool := negb (isspace c).

(** A line in normal form: not blank, nothing to trim on the right. *)
Definition normal_line (l : str) : Prop :=
  truthy (strip l) = true /\ rstrip l = l /\ ~ In LF l.

(** The line that [download_and_process_aozora] prints for an exception. *)
Definition error_line (W : World) (url : str) (e : exn) : event :=
  Printed (lit "Error processing " ++ url ++ lit ": " ++ str_of_exn W e ++ [LF]).

(** An exception [e] raised inside the [try] block, by stage. *)
Definition raises_at (W : World) (url : str) (e : exn) : Prop :=
  requests_get W url = Raise e
  \/ (exists response, requests_get W url = Ok response /\
        raise_for_status response = Raise e)
  \/ (exists response, requests_get W url = Ok response /\
        raise_for_status response = Ok tt /\
        zip_open W (content response) = Raise e)
  \/ (exists response z name others,
        requests_get W url = Ok response /\
        raise_for_status response = Ok tt /\
        zip_open W (content response) = Ok z /\
        filter (endswith (lit ".txt")) (namelist z) = name :: others /\
        read z name = Raise e).

(** The source gives the bytes [raw]: those of the first text entry. *)
Definition reads_entry (W : World) (url : str) (raw : bytes) : Prop :=
  exists response z name others,
    requests_get W url = Ok response /\
    raise_for_status response = Ok tt /\
    zip_open W (content response) = Ok z /\
    filter (endswith (lit ".txt")) (namelist z) = name :: others /\
    read z name = Ok raw.

Definition done_line : event := Printed (lit " Done." ++ [LF]).

(** The preview of a text: [text[:50].replace("\n", " ")]. *)
Definition sample_of (text : str) : str := replace LF SPACE (firstn 50 text).

Definition sample_line (text : str) : event :=
  Printed ((lit "--- Sample: " ++ sample_of text ++ lit "... ---") ++ [LF]).

(** The lines of a corpus cut at the empty lines: the lines of each work. *)
Fixpoint paragraphs (lines : list str) : list (list str) :=
  match lines with
  | [] => [[]]
  | l :: rest =>
      match l with
      | [] => [] :: paragraphs rest
      | _ :: _ =>
          match paragraphs rest with
          | g :: gs => (l :: g) :: gs
          | [] => [[l]]
          end
      end
  end.

(** The works of a corpus: the texts between the blank lines. *)
Definition works_of (corpus : str) : list str :=
  map (join [LF]) (paragraphs (split LF corpus)).



(** Case analysis on the test of a conditional in the goal. *)
Ltac case_if :=
  match goal with
  | |- context [if ?b then _ else _] => destruct b eqn:?
  end.

(** * Properties *)

(** ** Strings *)

Lemma startswith_spec (p s : str) :
  startswith p s = true <-> exists post, s = p ++ post.
Proof.
  revert s; induction p as [|a p IH]; intros s; simpl.
  - split; [intros _; now exists s | reflexivity].
  - destruct s as [|c s].
    + split; [discriminate | intros [post H]; discriminate].
    + rewrite andb_true_iff, N.eqb_eq, IH. split.
      * intros [-> [post ->]]. now exists post.
      * intros [post H]. injection H as -> ->. split; [reflexivity | now exists post].
Qed.

Lemma contains_spec (pat s : str) :
  contains pat s = true <-> exists pre post, s = pre ++ pat ++ post.
Proof.
  induction s as [|c s IH]; simpl; rewrite orb_true_iff, startswith_spec.
  - split.
    + intros [[post H] | H]; [| discriminate]. now exists [], post.
    + intros [pre [post H]]. left. destruct pre; [now exists post | discriminate].
  - rewrite IH. split.
    + intros [[post H] | [pre [post H]]].
      * now exists [], post.
      * exists (c :: pre), post. now rewrite H.
    + intros [[|a pre] [post H]].
      * left. now exists post.
      * right. injection H as _ ->. now exists pre, post.
Qed.

Lemma split_not_nil (sep : char) (s : str) : split sep s <> [].
Proof.
  induction s as [|c s IH]; simpl; [discriminate|].
  destruct (N.eqb c sep); [discriminate|].
  destruct (split sep s); discriminate.
Qed.

(** ** The two scans *)

Lemma header_loop_cons (i : nat) (l : str) (rest : list str) (st : locals) :
  header_loop i (l :: rest) st
  = if is_rule l then
      if Nat.eqb (S (separator_count st)) 2
      then mkLocals (S (separator_count st)) (i + 1) (end_idx st) (Some l)
      else header_loop (S i) rest
             (mkLocals (S (separator_count st)) (start_idx st) (end_idx st) (Some l))
    else header_loop (S i) rest
           (mkLocals (separator_count st) (start_idx st) (end_idx st) (Some l)).
Proof. reflexivity. Qed.

Lemma header_loop_end_idx (lines : list str) :
  forall i st, end_idx (header_loop i lines st) = end_idx st.
Proof.
  induction lines as [|l rest IH]; intros i st; [reflexivity|].
  rewrite header_loop_cons. repeat case_if; try rewrite IH; reflexivity.
Qed.

Lemma header_loop_line (lines : list str) :
  forall i st, lines <> [] -> line (header_loop i lines st) <> None.
Proof.
  induction lines as [|l rest IH]; intros i st Hne; [congruence|].
  rewrite header_loop_cons.
  repeat case_if; try discriminate;
    (destruct rest as [|l' rest']; [simpl; discriminate | apply IH; discriminate]).
Qed.

(** The count stops at two: it is the number of rule lines, capped. *)
Lemma header_loop_count (lines : list str) :
  forall i st, separator_count st < 2 ->
    separator_count (header_loop i lines st)
    = Nat.min 2 (separator_count st + count_rules lines).
Proof.
  unfold count_rules.
  induction lines as [|l rest IH]; intros i st Hlt.
  - cbn [header_loop filter List.length]. lia.
  - rewrite header_loop_cons. cbn [filter].
    destruct (is_rule l) eqn:Hr.
    + destruct (Nat.eqb (S (separator_count st)) 2) eqn:E.
      * apply Nat.eqb_eq in E. cbn [separator_count List.length]. lia.
      * apply Nat.eqb_neq in E.
        rewrite IH; cbn [separator_count List.length]; lia.
    + rewrite IH; cbn [separator_count]; lia.
Qed.

(** [start_idx] is touched only when the count reaches two. *)
Lemma header_loop_start (lines : list str) :
  forall i st, separator_count st < 2 ->
    separator_count (header_loop i lines st) < 2 ->
    start_idx (header_loop i lines st) = start_idx st.
Proof.
  induction lines as [|l rest IH]; intros i st Hlt; [reflexivity|].
  rewrite header_loop_cons.
  destruct (is_rule l) eqn:Hr.
  - destruct (Nat.eqb (S (separator_count st)) 2) eqn:E.
    + apply Nat.eqb_eq in E. simpl. lia.
    + apply Nat.eqb_neq in E. intros H. rewrite IH; simpl; auto; lia.
  - intros H. rewrite IH; simpl; auto.
Qed.

Lemma header_loop_skip (pre : list str) :
  forall i st rest, Forall (fun l => is_rule l = false) pre ->
    header_loop i (pre ++ rest) st
    = header_loop (i + List.length pre) rest
        (match pre with
         | [] => st
         | _ :: _ => mkLocals (separator_count st) (start_idx st) (end_idx st)
                              (Some (last pre []))
         end).
Proof.
  induction pre as [|l pre IH]; intros i st rest Hall.
  - simpl. now rewrite Nat.add_0_r.
  - inversion Hall as [|? ? Hl Hpre]; subst.
    simpl app. rewrite header_loop_cons, Hl.
    rewrite IH by assumption. simpl List.length.
    replace (S i + List.length pre) with (i + S (List.length pre)) by lia.
    destruct pre; reflexivity.
Qed.

(** Two rule lines, the first two of the text: the scan stops at the second
    one, which stays in [line]. *)
Lemma header_loop_two_rules (l1 l2 rest : list str) (r1 r2 : str) (st : locals) :
  separator_count st = 0 ->
  Forall (fun l => is_rule l = false) l1 ->
  Forall (fun l => is_rule l = false) l2 ->
  is_rule r1 = true -> is_rule r2 = true ->
  header_loop 0 (l1 ++ r1 :: l2 ++ r2 :: rest) st
  = mkLocals 2 (List.length l1 + 1 + List.length l2 + 1) (end_idx st) (Some r2).
Proof.
  intros H0 H1 H2 Hr1 Hr2.
  rewrite header_loop_skip by assumption.
  rewrite header_loop_cons, Hr1.
  replace (separator_count _) with 0 by (destruct l1; simpl; congruence).
  simpl Nat.eqb. cbv iota.
  rewrite header_loop_skip by assumption.
  rewrite header_loop_cons, Hr2.
  replace (separator_count _) with 1 by (destruct l2; reflexivity).
  simpl Nat.eqb. cbv iota.
  replace (end_idx _) with (end_idx st) by (destruct l1, l2; reflexivity).
  f_equal. simpl. lia.
Qed.

(** The footer scan decides at its first index, on the same [line]. *)
Lemma footer_loop_spec (idxs : list nat) (st : locals) (l : str) :
  line st = Some l ->
  footer_loop idxs st
  = Ok (match idxs with
        | i :: _ => if is_colophon l
                    then mkLocals (separator_count st) (start_idx st) i (line st)
                    else st
        | [] => st
        end).
Proof.
  intros Hl. destruct idxs as [|i rest]; [reflexivity|].
  simpl. rewrite Hl. destruct (is_colophon l) eqn:E; [reflexivity|].
  induction rest as [|j rest IH]; simpl; [reflexivity|].
  now rewrite Hl, E.
Qed.

Lemma range_cons (a b : nat) : a < b -> range a b = a :: range (S a) b.
Proof.
  unfold range. intros H. replace (b - a) with (S (b - S a)) by lia. reflexivity.
Qed.

Lemma range_nil (a b : nat) : b <= a -> range a b = [].
Proof.
  unfold range. intros H. replace (b - a) with 0 by lia. reflexivity.
Qed.

(** What both scans leave: the footer scan either keeps [end_idx] at the
    number of lines or moves it to [start_idx]. *)
Lemma scan_spec (lines : list str) :
  lines <> [] ->
  let h := header_loop 0 lines (locals0 lines) in
  exists l, line h = Some l /\
    scan lines
    = Ok (mkLocals (separator_count h) (start_idx h)
            (if is_colophon l && (start_idx h <? List.length lines)
             then start_idx h else List.length lines)
            (Some l)).
Proof.
  intros Hne h.
  destruct (line h) as [l|] eqn:Hl;
    [| exfalso; revert Hl; apply header_loop_line; assumption].
  exists l. split; [reflexivity|].
  assert (He : end_idx h = List.length lines)
    by (unfold h; now rewrite header_loop_end_idx).
  assert (Hs : separator_count h < 2 -> start_idx h = 0).
  { intros Hc. unfold h in *. rewrite header_loop_start; simpl; auto. }
  unfold scan. fold (locals0 lines). fold h.
  rewrite (footer_loop_spec _ _ Hl).
  destruct (start_idx h <? List.length lines) eqn:Hlt.
  - apply Nat.ltb_lt in Hlt. rewrite (range_cons Hlt).
    rewrite andb_true_r.
    destruct (is_colophon l); cbn [separator_count start_idx end_idx line];
      destruct (separator_count h <? 2) eqn:Hc; cbn [separator_count start_idx end_idx line];
      try (apply Nat.ltb_lt in Hc; rewrite (Hs Hc));
      try rewrite He; try rewrite Hl; try reflexivity;
      destruct h; simpl in *; subst; reflexivity.
  - apply Nat.ltb_ge in Hlt. rewrite (range_nil Hlt).
    rewrite andb_false_r.
    destruct (separator_count h <? 2) eqn:Hc; cbn [separator_count start_idx end_idx line];
      try (apply Nat.ltb_lt in Hc; rewrite (Hs Hc));
      try rewrite He; try rewrite Hl; try reflexivity;
      destruct h; simpl in *; subst; reflexivity.
Qed.

Lemma slice_empty {A : Type} (a : nat) (ls : list A) : slice a a ls = [].
Proof.
  unfold slice. apply length_zero_iff_nil.
  rewrite length_skipn, length_firstn. lia.
Qed.

Lemma slice_to_end {A : Type} (a : nat) (ls : list A) :
  slice a (List.length ls) ls = skipn a ls.
Proof. unfold slice. now rewrite firstn_all. Qed.

(** [clean_aozora_text] never raises: [line] is bound whenever the footer
    scan reads it, because [split] gives at least one line. *)
Lemma clean_aozora_text_returns (text : str) :
  exists st,
    scan (split LF (strip_markup text)) = Ok st /\
    clean_aozora_text text
    = Ok (join_lines (slice (start_idx st) (end_idx st)
                        (split LF (strip_markup text)))).
Proof.
  destruct (scan_spec (@split_not_nil LF (strip_markup text))) as [l [_ H]].
  eexists. split; [exact H|].
  unfold clean_aozora_text. rewrite H. reflexivity.
Qed.

(** ** Footer removal *)

(** C9. Footer removal is all or nothing: for every text the lines kept
    either run to the last line, or [end_idx] equals [start_idx] and the
    function returns the empty string; no text has a proper footer removed
    while some text is kept. *)
Theorem footer_all_or_nothing (text : str) :
  let lines := split LF (strip_markup text) in
  exists st out,
    scan lines = Ok st /\
    clean_aozora_text text = Ok out /\
    out = join_lines (slice (start_idx st) (end_idx st) lines) /\
    (end_idx st = List.length lines \/ (end_idx st = start_idx st /\ out = [])) /\
    ~ (end_idx st < List.length lines /\ out <> []).
Proof.
  intros lines.
  destruct (scan_spec (@split_not_nil LF (strip_markup text))) as [l [_ H]].
  fold lines in H.
  set (h := header_loop 0 lines (locals0 lines)) in *.
  eexists. eexists. split; [exact H|]. split.
  { unfold clean_aozora_text. fold lines. rewrite H. reflexivity. }
  split; [reflexivity|].
  cbn [start_idx end_idx].
  destruct (is_colophon l && (start_idx h <? List.length lines)).
  - rewrite slice_empty. split.
    + right. split; reflexivity.
    + intros [_ Hout]. apply Hout. reflexivity.
  - split; [left; reflexivity | intros [Hlt _]; lia].
Qed.

(** The test of the footer scan never looks at the lines it ranges over:
    two runs over different index lists of the same length end alike up to
    the index stored. *)
Lemma footer_loop_ignores_lines (idxs : list nat) (st : locals) :
  forall st', footer_loop idxs st = Ok st' ->
    line st' = line st /\
    (end_idx st' = end_idx st \/ exists i rest, idxs = i :: rest /\ end_idx st' = i).
Proof.
  intros st' H. destruct (line st) as [l|] eqn:Hl.
  - rewrite (footer_loop_spec _ _ Hl) in H. injection H as <-.
    destruct idxs as [|i rest]; [auto|].
    destruct (is_colophon l); simpl; [|auto].
    split; [assumption | right; now exists i, rest].
  - destruct idxs as [|i rest]; simpl in H.
    + injection H as <-. auto.
    + rewrite Hl in H. discriminate.
Qed.

(** With two rule lines before it, the footer stays: [line] holds the second
    rule when the footer scan runs. *)
Lemma scan_two_rules (l1 l2 rest : list str) (r1 r2 : str) :
  Forall (fun l => is_rule l = false) l1 ->
  Forall (fun l => is_rule l = false) l2 ->
  is_rule r1 = true -> is_rule r2 = true ->
  let lines := l1 ++ r1 :: l2 ++ r2 :: rest in
  let start := List.length l1 + 1 + List.length l2 + 1 in
  scan lines
  = Ok (mkLocals 2 start
          (if is_colophon r2 && (start <? List.length lines)
           then start else List.length lines)
          (Some r2)).
Proof.
  intros H1 H2 Hr1 Hr2 lines start.
  assert (Hne : lines <> []) by (unfold lines; destruct l1; discriminate).
  assert (E : header_loop 0 lines (locals0 lines)
              = mkLocals 2 start (List.length lines) (Some r2))
    by (apply header_loop_two_rules; auto).
  destruct (scan_spec Hne) as [l [Hl H]].
  rewrite E in Hl, H. cbn [line separator_count start_idx] in Hl, H.
  injection Hl as <-. exact H.
Qed.

Lemma slice_after_header (l1 l2 rest : list str) (r1 r2 : str) :
  skipn (List.length l1 + 1 + List.length l2 + 1) (l1 ++ r1 :: l2 ++ r2 :: rest)
  = rest.
Proof.
  replace (l1 ++ r1 :: l2 ++ r2 :: rest)
    with ((l1 ++ r1 :: l2 ++ [r2]) ++ rest)
    by (rewrite <- !app_assoc; simpl; rewrite <- app_assoc; reflexivity).
  replace (List.length l1 + 1 + List.length l2 + 1)
    with (List.length (l1 ++ r1 :: l2 ++ [r2]))
    by (rewrite length_app; simpl; rewrite length_app; simpl; lia).
  rewrite skipn_app, skipn_all, Nat.sub_diag. reflexivity.
Qed.

(** Whatever follows the second rule is kept to the end, colophon and all,
    as long as the second rule line is no colophon line itself. *)
Lemma scan_keeps_footer (l1 l2 body footer : list str) (r1 r2 c : str) :
  Forall (fun l => is_rule l = false) l1 ->
  Forall (fun l => is_rule l = false) l2 ->
  is_rule r1 = true -> is_rule r2 = true ->
  is_colophon r2 = false -> is_colophon c = true ->
  let lines := l1 ++ r1 :: l2 ++ r2 :: body ++ c :: footer in
  exists st, scan lines = Ok st /\
    slice (start_idx st) (end_idx st) lines = body ++ c :: footer.
Proof.
  intros H1 H2 Hr1 Hr2 Hn Hc lines.
  eexists. split; [apply scan_two_rules; assumption|].
  rewrite Hn. cbn [andb start_idx end_idx].
  rewrite slice_to_end. apply slice_after_header.
Qed.

(** ** Concrete texts *)

(** C1 (the code departs from it). A header closed by two rule lines, a
    body, a colophon line and what follows it: the footer is not removed,
    the colophon line and the line after it are returned with the body. *)
Theorem colophon_footer_is_kept :
  clean_aozora_text
    (text_of [lit "title"; RULE; lit "author"; RULE;
              lit "first  "; lit ""; lit "second";
              COLOPHON ++ lit "edition"; lit "typed by"])
  = Ok (text_of [lit "first"; lit "second";
                 COLOPHON ++ lit "edition"; lit "typed by"])
  /\ text_of [lit "first"; lit "second";
              COLOPHON ++ lit "edition"; lit "typed by"]
     <> text_of [lit "first"; lit "second"].
Proof. split; [vm_compute; reflexivity | vm_compute; discriminate]. Qed.

(** C4 (the code departs from it). A header, a body and a colophon line
    that ends the text: the first run keeps the colophon line as the last
    line, the second run finds it in [line] and returns the empty string. *)
Theorem clean_twice_differs :
  let t := text_of [lit "title"; RULE; lit "author"; RULE;
                    lit "body"; COLOPHON ++ lit "edition"; lit ""] in
  let u := text_of [lit "body"; COLOPHON ++ lit "edition"] in
  clean_aozora_text t = Ok u /\ clean_aozora_text u = Ok [] /\ u <> [].
Proof. repeat split; vm_compute; try reflexivity; discriminate. Qed.

(** C7 (the code departs from it). The second rule line begins with the
    colophon marker; the body starts at index 2 and no line from there on
    is a colophon line, yet the body is dropped: the footer scan reads the
    rule line left in [line]. *)
Theorem stale_rule_line_drops_body :
  let lines := [RULE; COLOPHON ++ RULE; lit "body"] in
  split LF (strip_markup (text_of lines)) = lines /\
  (exists st, scan lines = Ok st /\ start_idx st = 2 /\ end_idx st = 2) /\
  Forall (fun l => is_colophon l = false) (skipn 2 lines) /\
  clean_aozora_text (text_of lines) = Ok [] /\
  join_lines (skipn 2 lines) = lit "body".
Proof.
  repeat split; try (vm_compute; reflexivity).
  - eexists. split; [vm_compute; reflexivity|]. split; reflexivity.
  - repeat constructor.
Qed.

(** ** The rule of the header *)

Lemma scan_count (lines : list str) :
  exists st, scan lines = Ok st /\
    separator_count st = Nat.min 2 (count_rules lines).
Proof.
  destruct lines as [|l0 lines0] eqn:E.
  - eexists. split; [vm_compute; reflexivity | reflexivity].
  - rewrite <- E.
    assert (Hne : lines <> []) by (rewrite E; discriminate).
    destruct (scan_spec Hne) as [l [_ H]].
    eexists. split; [exact H|]. cbn [separator_count].
    rewrite header_loop_count; simpl; auto.
Qed.

(** C2 as stated fails: a line of 55 hyphens counts as a rule line and
    holds no run of 57 hyphens. *)
Lemma rule_is_not_57_hyphens :
  is_rule (repeat HYPHEN 55) = true /\
  ~ (exists pre post, repeat HYPHEN 55 = pre ++ repeat HYPHEN 57 ++ post) /\
  List.length SEPARATOR <> 57.
Proof.
  split; [vm_compute; reflexivity|]. split.
  - intros H. apply contains_spec in H. vm_compute in H. discriminate.
  - vm_compute. discriminate.
Qed.

(** C2, amended. The rule string is a row of 55 hyphens; a line counts
    toward the rule count (which stops at two) exactly when it contains
    that string; the body starts at the line after the second such line. *)
Theorem rule_is_55_hyphens :
  SEPARATOR = repeat HYPHEN 55 /\
  (forall l, is_rule l = true
             <-> exists pre post, l = pre ++ repeat HYPHEN 55 ++ post) /\
  (forall lines, exists st, scan lines = Ok st /\
     separator_count st = Nat.min 2 (List.length (filter is_rule lines))) /\
  (forall l1 l2 rest r1 r2,
     Forall (fun l => is_rule l = false) l1 ->
     Forall (fun l => is_rule l = false) l2 ->
     is_rule r1 = true -> is_rule r2 = true ->
     exists st, scan (l1 ++ r1 :: l2 ++ r2 :: rest) = Ok st /\
       start_idx st = List.length l1 + 1 + List.length l2 + 1 /\
       skipn (start_idx st) (l1 ++ r1 :: l2 ++ r2 :: rest) = rest).
Proof.
  assert (E : SEPARATOR = repeat HYPHEN 55) by reflexivity.
  split; [exact E|]. split; [|split].
  - intros l. unfold is_rule. rewrite E. apply contains_spec.
  - intros lines. apply scan_count.
  - intros l1 l2 rest r1 r2 H1 H2 Hr1 Hr2.
    eexists. split; [apply scan_two_rules; assumption|].
    cbn [start_idx]. split; [reflexivity | apply slice_after_header].
Qed.

Lemma rule_is_55_hyphens_witness :
  exists st, scan ([lit "title"] ++ RULE :: [lit "author"] ++ RULE :: [lit "body"])
             = Ok st /\
    start_idx st = 1 + 1 + 1 + 1 /\
    skipn (start_idx st)
      ([lit "title"] ++ RULE :: [lit "author"] ++ RULE :: [lit "body"])
    = [lit "body"].
Proof.
  apply (proj2 (proj2 (proj2 rule_is_55_hyphens))
           [lit "title"] [lit "author"] [lit "body"] RULE RULE).
  - repeat constructor.
  - repeat constructor.
  - vm_compute; reflexivity.
  - vm_compute; reflexivity.
Defined.

(** ** The substitutions *)

Lemma strip_prefix_spec (p s r : str) :
  strip_prefix p s = Some r <-> s = p ++ r.
Proof.
  revert s; induction p as [|a p IH]; intros s; simpl.
  - split; [intros H; injection H as ->; reflexivity | intros ->; reflexivity].
  - destruct s as [|c s]; [split; discriminate|].
    destruct (N.eqb a c) eqn:E.
    + apply N.eqb_eq in E. subst c. rewrite IH.
      split; [intros ->; reflexivity | intros H; injection H as ->; reflexivity].
    + apply N.eqb_neq in E. split; [discriminate|].
      intros H. injection H as -> _. congruence.
Qed.

Lemma span_run_spec (cls : char) (s : str) :
  s = fst (span_run cls s) ++ snd (span_run cls s) /\
  ~ In cls (fst (span_run cls s)) /\
  (snd (span_run cls s) = [] \/ exists r, snd (span_run cls s) = cls :: r).
Proof.
  induction s as [|c s IH]; simpl.
  - repeat split; auto.
  - destruct (N.eqb c cls) eqn:E; simpl.
    + apply N.eqb_eq in E. subst c. repeat split; auto. right. now exists s.
    + apply N.eqb_neq in E.
      destruct (span_run cls s) as [run rest]. simpl in *.
      destruct IH as [H1 [H2 H3]]. repeat split.
      * now rewrite <- H1.
      * intros [H | H]; [congruence | contradiction].
      * assumption.
Qed.

(** A run without the closing character, then the closing character: the
    decomposition is unique. *)
Lemma run_unique (cls : char) (r1 r2 t1 t2 : str) :
  ~ In cls r1 -> ~ In cls r2 ->
  r1 ++ cls :: t1 = r2 ++ cls :: t2 -> r1 = r2 /\ t1 = t2.
Proof.
  revert r2; induction r1 as [|a r1 IH]; intros [|b r2] H1 H2 E; simpl in *.
  - injection E as ->. auto.
  - injection E as -> _. exfalso. apply H2. now left.
  - injection E as -> _. exfalso. apply H1. now left.
  - injection E as -> E.
    destruct (IH r2) as [-> ->]; auto.
Qed.

(** The pattern after its prefix, declaratively: a non-empty run without
    the closing character, then the closing character. *)
Lemma match_body_spec (cls : char) (s rest : str) :
  match_body cls s = Some rest
  <-> exists run, run <> [] /\ ~ In cls run /\ s = run ++ cls :: rest.
Proof.
  unfold match_body.
  destruct (span_run_spec cls s) as [H1 [H2 H3]].
  destruct (span_run cls s) as [run rest0]. simpl in *. split.
  - destruct run as [|a run]; [discriminate|].
    destruct rest0 as [|c rest1]; [discriminate|].
    destruct (N.eqb c cls) eqn:E; [|discriminate].
    apply N.eqb_eq in E. subst c. intros H. injection H as ->.
    exists (a :: run). repeat split; [discriminate | assumption | assumption].
  - intros [run' [Hne [Hnot E]]].
    destruct H3 as [-> | [r ->]].
    + exfalso. rewrite app_nil_r in H1. subst s. apply H2.
      rewrite E. apply in_or_app. right. now left.
    + rewrite H1 in E. destruct (@run_unique _ _ _ _ _ H2 Hnot E) as [-> ->].
      destruct run' as [|a run']; [congruence|].
      now rewrite N.eqb_refl.
Qed.

(** The declarative reading of [OPEN [^CLOSE]+ CLOSE] at the head of [s]. *)
Lemma match_span_spec (opn : str) (cls : char) (s rest : str) :
  match_span opn cls s = Some rest
  <-> exists run, run <> [] /\ ~ In cls run /\ s = opn ++ run ++ cls :: rest.
Proof.
  unfold match_span. split.
  - destruct (strip_prefix opn s) as [body|] eqn:E; [|discriminate].
    apply strip_prefix_spec in E. rewrite match_body_spec.
    intros [run [H1 [H2 H3]]]. exists run. subst. auto.
  - intros [run [H1 [H2 H3]]].
    assert (E : strip_prefix opn s = Some (run ++ cls :: rest))
      by (now apply strip_prefix_spec).
    rewrite E. apply match_body_spec. now exists run.
Qed.

Lemma match_span_shorter (opn : str) (cls : char) (s rest : str) :
  match_span opn cls s = Some rest ->
  List.length rest < List.length s /\ exists d, s = d ++ rest.
Proof.
  intros H. apply match_span_spec in H. destruct H as [run [_ [_ ->]]].
  split.
  - rewrite !length_app. simpl. lia.
  - exists (opn ++ run ++ [cls]). rewrite <- !app_assoc. reflexivity.
Qed.

(** More fuel than characters changes nothing. *)
Lemma sub_span_fuel_enough (opn : str) (cls : char) (fuel : nat) :
  forall s, List.length s <= fuel ->
    sub_span_fuel fuel opn cls s = sub_span opn cls s.
Proof.
  unfold sub_span.
  induction fuel as [fuel IH] using lt_wf_ind. intros s Hlen.
  destruct s as [|c s]; [destruct fuel; reflexivity|].
  destruct fuel as [|fuel]; [simpl in Hlen; lia|].
  cbn [List.length sub_span_fuel].
  destruct (match_span opn cls (c :: s)) as [rest|] eqn:E.
  - apply match_span_shorter in E. destruct E as [E _]. simpl in E, Hlen.
    rewrite (IH fuel) by lia. rewrite (IH (List.length s)) by lia. reflexivity.
  - f_equal. apply IH; simpl in *; lia.
Qed.

(** The equations of the substitution. *)
Lemma sub_span_nil (opn : str) (cls : char) : sub_span opn cls [] = [].
Proof. reflexivity. Qed.

Lemma sub_span_match (opn : str) (cls : char) (s rest : str) :
  match_span opn cls s = Some rest ->
  sub_span opn cls s = sub_span opn cls rest.
Proof.
  intros E. destruct s as [|c s].
  - apply match_span_shorter in E. simpl in E. lia.
  - unfold sub_span at 1. cbn [List.length sub_span_fuel]. rewrite E.
    apply sub_span_fuel_enough.
    apply match_span_shorter in E. simpl in E. lia.
Qed.

Lemma sub_span_skip (opn : str) (cls : char) (c : char) (s : str) :
  match_span opn cls (c :: s) = None ->
  sub_span opn cls (c :: s) = c :: sub_span opn cls s.
Proof.
  intros E. unfold sub_span at 1. cbn [List.length sub_span_fuel]. rewrite E.
  reflexivity.
Qed.

(** An induction principle that follows the scanner. *)
Lemma sub_span_ind (opn : str) (cls : char) (P : str -> str -> Prop) :
  P [] [] ->
  (forall s rest, match_span opn cls s = Some rest ->
     P rest (sub_span opn cls rest) -> P s (sub_span opn cls rest)) ->
  (forall c s, match_span opn cls (c :: s) = None ->
     P s (sub_span opn cls s) -> P (c :: s) (c :: sub_span opn cls s)) ->
  forall s, P s (sub_span opn cls s).
Proof.
  intros Hnil Hmatch Hskip s.
  remember (List.length s) as n eqn:Hn. revert s Hn.
  induction n as [n IH] using lt_wf_ind. intros s Hn.
  destruct s as [|c s]; [exact Hnil|].
  destruct (match_span opn cls (c :: s)) as [rest|] eqn:E.
  - rewrite (@sub_span_match _ _ _ _ E).
    apply Hmatch; [assumption|].
    apply (IH (List.length rest)); [|reflexivity].
    apply match_span_shorter in E. lia.
  - rewrite (@sub_span_skip _ _ _ _ E).
    apply Hskip; [assumption|].
    apply (IH (List.length s)); [simpl in Hn; lia | reflexivity].
Qed.


(** ** Ruby spans *)












(** ** Lines *)

Lemma split_cons_LF (s : str) : split LF (LF :: s) = [] :: split LF s.
Proof. reflexivity. Qed.

Lemma split_cons_other (c : char) (s : str) :
  c <> LF ->
  exists l ls, split LF s = l :: ls /\ split LF (c :: s) = (c :: l) :: ls.
Proof.
  intros Hc. simpl. apply N.eqb_neq in Hc. rewrite Hc.
  destruct (split LF s) as [|l ls] eqn:E.
  - exfalso. revert E. apply split_not_nil.
  - now exists l, ls.
Qed.

(** The characters of the lines are those of the text. *)
Lemma split_in (x : char) (s : str) :
  forall l, In l (split LF s) -> In x l -> In x s.
Proof.
  induction s as [|c s IH]; intros l Hl Hx.
  - simpl in Hl. destruct Hl as [<- | []]. exact Hx.
  - destruct (N.eq_dec c LF) as [-> | Hc].
    + rewrite split_cons_LF in Hl. destruct Hl as [<- | Hl]; [destruct Hx|].
      right. eapply IH; eauto.
    + destruct (split_cons_other s Hc) as [l0 [ls [E1 E2]]].
      rewrite E2 in Hl. rewrite E1 in IH.
      destruct Hl as [<- | Hl].
      * destruct Hx as [-> | Hx]; [now left|].
        right. apply (IH l0); [now left | assumption].
      * right. apply (IH l); [now right | assumption].
Qed.






Lemma rstrip_in (x : char) (l : str) : In x (rstrip l) -> In x l.
Proof.
  induction l as [|c t IH]; [auto|]. cbn [rstrip].
  destruct (rstrip t) as [|r rs].
  - destruct (isspace c); [intros [] | intros [<- | []]; now left].
  - intros [<- | H]; [now left | right; auto].
Qed.


Lemma line_ok_nil_later (l : str) (later : list str) :
  Forall no_close later -> no_close l -> line_ok l later.
Proof.
  intros HF. induction l as [|c t IH]; [simpl; auto|]. intros Hn.
  assert (Ht : no_close t) by (intros H; apply Hn; now right).
  split; [|auto]. intros _. right. auto.
Qed.







Lemma slice_in {A : Type} (a b : nat) (ls : list A) (x : A) :
  In x (slice a b ls) -> In x ls.
Proof.
  unfold slice. intros H.
  rewrite <- (firstn_skipn b ls). apply in_or_app. left.
  rewrite <- (firstn_skipn a (firstn b ls)). apply in_or_app. now right.
Qed.



(** ** Markup left in the output *)


(** A complete note can remain too: the bar between its first two
    characters is removed after the notes. *)
Example note_can_remain :
  clean_aozora_text
    ([NOTE_OPEN; RUBY_BAR; NOTE_SHARP] ++ lit "x" ++ [NOTE_CLOSE])
  = Ok ([NOTE_OPEN; NOTE_SHARP] ++ lit "x" ++ [NOTE_CLOSE]).
Proof. vm_compute. reflexivity. Qed.


(** ** One source *)

Lemma download_spec (W : World) (url : str) (t : trace) :
  download_and_process_aozora W url t
  = (Ok (text_of_source W url), t ++ download_log W url).
Proof.
  unfold download_and_process_aozora, try_except, lift, text_of_source,
    download_log.
  destruct (fetch_and_clean W url) as [s | e].
  - now rewrite app_nil_r.
  - unfold bind, print, print_end, ret. now rewrite <- !app_assoc.
Qed.

Lemma process_url_spec (W : World) (fc : list str) (url : str) (t : trace) :
  process_url W fc url t
  = (Ok (if truthy (text_of_source W url)
         then fc ++ [text_of_source W url] else fc),
     t ++ url_events W url).
Proof.
  unfold process_url, url_events, processing_line, failed_line, filename_of.
  unfold bind at 1. unfold print_end at 1. rewrite app_nil_r.
  unfold bind at 1. rewrite download_spec.
  destruct (truthy (text_of_source W url));
    unfold bind, print, print_end, ret; cbn [app];
    rewrite <- !app_assoc; reflexivity.
Qed.

Lemma for_urls_spec (W : World) (urls : list str) :
  forall fc t,
    for_urls W urls fc t
    = (Ok (fc ++ filter truthy (map (text_of_source W) urls)),
       t ++ flat_map (url_events W) urls).
Proof.
  induction urls as [|url rest IH]; intros fc t.
  - simpl. unfold ret. now rewrite !app_nil_r.
  - cbn [for_urls]. unfold bind. rewrite process_url_spec, IH.
    cbn [map filter flat_map].
    destruct (truthy (text_of_source W url));
      rewrite <- !app_assoc; reflexivity.
Qed.

Lemma main_on_spec (W : World) (urls : list str) :
  run (main_on W urls)
  = (Ok tt,
     opening_event urls :: flat_map (url_events W) urls
     ++ closing_events (filter truthy (map (text_of_source W) urls))).
Proof.
  unfold run, main_on, opening_event.
  unfold bind at 1. unfold print at 1, print_end at 1. cbn [app].
  unfold bind at 1. rewrite for_urls_spec. cbn [app].
  destruct (filter truthy (map (text_of_source W) urls)) as [|x xs];
    unfold closing_events, bind, print, print_end, write_file;
    cbn [app]; rewrite <- ?app_assoc; reflexivity.
Qed.

(** ** The corpus file *)

Lemma url_events_print (W : World) (url : str) : Forall is_print (url_events W url).
Proof.
  unfold url_events, processing_line, download_log, failed_line.
  constructor; [exact I|]. apply Forall_app. split.
  - destruct (fetch_and_clean W url); repeat constructor.
  - destruct (truthy _); repeat constructor.
Qed.

Lemma loop_events_print (W : World) (urls : list str) :
  Forall is_print (flat_map (url_events W) urls).
Proof.
  induction urls as [|u rest IH]; cbn [flat_map]; [constructor|].
  apply Forall_app. split; [apply url_events_print | exact IH].
Qed.

Lemma file_writes_app (t1 t2 : trace) :
  file_writes (t1 ++ t2) = file_writes t1 ++ file_writes t2.
Proof. unfold file_writes. apply flat_map_app. Qed.

Lemma file_writes_prints (t : trace) : Forall is_print t -> file_writes t = [].
Proof.
  induction 1 as [|e t He _ IH]; [reflexivity|].
  destruct e; [exact IH | destruct He].
Qed.

Lemma file_after_app (path : str) (t1 t2 : trace) :
  forall before,
    file_after path (t1 ++ t2) before
    = file_after path t2 (file_after path t1 before).
Proof.
  induction t1 as [|e t1 IH]; intros before; [reflexivity|].
  destruct e; simpl; apply IH.
Qed.

Lemma file_after_prints (path : str) (t : trace) (before : option str) :
  Forall is_print t -> file_after path t before = before.
Proof.
  induction 1 as [|e t He _ IH]; [reflexivity|].
  destruct e; [exact IH | destruct He].
Qed.

Lemma console_app (t1 t2 : trace) : console (t1 ++ t2) = console t1 ++ console t2.
Proof. unfold console. apply flat_map_app. Qed.

Lemma filter_truthy_nonempty (W : World) (urls : list str) :
  filter truthy (map (text_of_source W) urls) <> []
  <-> exists url, In url urls /\ text_of_source W url <> [].
Proof.
  split.
  - intros H. destruct (filter truthy (map (text_of_source W) urls)) as [|x xs] eqn:E;
      [congruence|].
    assert (Hx : In x (filter truthy (map (text_of_source W) urls)))
      by (rewrite E; now left).
    apply filter_In in Hx. destruct Hx as [Hx Ht].
    apply in_map_iff in Hx. destruct Hx as [url [<- Hu]].
    exists url. split; [assumption|]. destruct (text_of_source W url); discriminate.
  - intros [url [Hu Hne]] E.
    assert (Hx : In (text_of_source W url)
                   (filter truthy (map (text_of_source W) urls))).
    { apply filter_In. split; [now apply in_map|].
      destruct (text_of_source W url); [congruence | reflexivity]. }
    rewrite E in Hx. destruct Hx.
Qed.

(** C5. After all sources: when some source gave a non-empty text, [main]
    writes the non-empty texts, in the order of the sources, joined by two
    newlines, as the one write of the output file, and prints the sum of
    their lengths as the total; when none did, it writes nothing and
    prints the no-data message.  The file is there after the run exactly
    when some source gave a non-empty text. *)
Theorem corpus_written_iff_some_source (W : World) (urls : list str) :
  let texts := filter truthy (map (text_of_source W) urls) in
  (forall url t,
     fst (download_and_process_aozora W url t) = Ok (text_of_source W url)) /\
  exists t, run (main_on W urls) = (Ok tt, t) /\
    file_writes t
    = match texts with
      | [] => []
      | _ :: _ => [(OUTPUT_FILE, join [LF; LF] texts)]
      end /\
    last (console t) []
    = match texts with
      | [] => ([LF] ++ lit "No text data extracted.") ++ [LF]
      | _ :: _ =>
          (lit "Total characters: "
           ++ str_of_nat (list_sum (map (@List.length char) texts))) ++ [LF]
      end /\
    file_after OUTPUT_FILE t None
    = match texts with
      | [] => None
      | _ :: _ => Some (join [LF; LF] texts)
      end /\
    (file_after OUTPUT_FILE t None <> None
     <-> exists url, In url urls /\ text_of_source W url <> []).
Proof.
  intros texts. split.
  { intros url t. now rewrite download_spec. }
  eexists. split; [apply main_on_spec|].
  fold texts.
  pose proof (loop_events_print W urls) as Hp.
  assert (Hfile : file_after OUTPUT_FILE
            (opening_event urls :: flat_map (url_events W) urls
             ++ closing_events texts) None
          = match texts with
            | [] => None
            | _ :: _ => Some (join [LF; LF] texts)
            end).
  { cbn [file_after opening_event]. rewrite file_after_app.
    rewrite (file_after_prints _ _ Hp).
    destruct texts as [|x xs]; [reflexivity|].
    cbn [closing_events file_after].
    destruct (str_eq_dec OUTPUT_FILE OUTPUT_FILE); [reflexivity | congruence]. }
  split; [|split; [|split]].
  - cbn [file_writes flat_map opening_event app].
    fold (file_writes (flat_map (url_events W) urls ++ closing_events texts)).
    rewrite file_writes_app, (file_writes_prints Hp).
    destruct texts; reflexivity.
  - change (opening_event urls :: flat_map (url_events W) urls
            ++ closing_events texts)
      with ((opening_event urls :: flat_map (url_events W) urls)
            ++ closing_events texts).
    rewrite console_app.
    destruct texts as [|x xs]; cbn [closing_events console flat_map app].
    + apply last_last.
    + change [?a; ?b] with ([a] ++ [b]). rewrite app_assoc. apply last_last.
  - exact Hfile.
  - rewrite Hfile. rewrite <- filter_truthy_nonempty. fold texts.
    destruct texts; split; intros H; congruence.
Qed.

(** ** Failures of one source *)

Lemma no_text_files (names : list str) :
  Forall (fun name => endswith (lit ".txt") name = false) names ->
  filter (endswith (lit ".txt")) names = [].
Proof.
  induction 1 as [|n names Hn _ IH]; [reflexivity|].
  cbn [filter]. now rewrite Hn.
Qed.

Lemma raise_for_status_error (response : Response) :
  400 <= status_code response < 600 ->
  exists e, raise_for_status response = Raise e.
Proof.
  intros [H1 H2]. unfold raise_for_status.
  apply Nat.leb_le in H1. apply Nat.ltb_lt in H2. rewrite H1, H2.
  now eexists.
Qed.

Lemma local_failure_fetch (W : World) (url : str) :
  local_failure W url ->
  fetch_and_clean W url = Ok [] \/ exists e, fetch_and_clean W url = Raise e.
Proof.
  unfold fetch_and_clean.
  intros [[e He] | [[r [Hr Hs]] | [r [z [Hr [Hs [Hz Hn]]]]]]].
  - right. exists e. now rewrite He.
  - right. destruct (raise_for_status_error r Hs) as [e He].
    exists e. rewrite Hr. cbn [rbind]. now rewrite He.
  - left. rewrite Hr. cbn [rbind]. rewrite Hs. cbn [rbind]. rewrite Hz.
    cbn [rbind]. now rewrite (no_text_files Hn).
Qed.

Lemma local_failure_text (W : World) (url : str) :
  local_failure W url -> text_of_source W url = [].
Proof.
  intros H. unfold text_of_source.
  destruct (local_failure_fetch H) as [-> | [e ->]]; reflexivity.
Qed.

(** C6. A transport error, an error status or an archive without a [.txt]
    entry makes [download_and_process_aozora] return the empty string; it
    never raises.  [main] then prints the failure line for that source and
    leaves the accumulator as it was, and a run over any list of sources
    ends normally with the events of every source, in order. *)
Theorem local_failure_is_contained (W : World) :
  (forall url t, exists s log,
     download_and_process_aozora W url t = (Ok s, t ++ log)) /\
  (forall url t, local_failure W url ->
     exists log, download_and_process_aozora W url t = (Ok [], t ++ log)) /\
  (forall url fc t, local_failure W url ->
     exists log,
       process_url W fc url t
       = (Ok fc, t ++ processing_line url :: log ++ [failed_line])) /\
  (forall urls, exists closing,
     run (main_on W urls)
     = (Ok tt, opening_event urls :: flat_map (url_events W) urls ++ closing)) /\
  (forall url, exists rest, url_events W url = processing_line url :: rest).
Proof.
  split; [|split; [|split; [|split]]].
  - intros url t. eexists. eexists. apply download_spec.
  - intros url t H. eexists. rewrite download_spec.
    now rewrite (local_failure_text H).
  - intros url fc t H. exists (download_log W url).
    rewrite process_url_spec. unfold url_events.
    now rewrite (local_failure_text H).
  - intros urls. eexists. apply main_on_spec.
  - intros url. eexists. reflexivity.
Qed.

(** ** Decoding *)

Lemma decode_from_ignore_total (step : Byte.byte -> bytes -> decode_step)
    (raw : bytes) :
  forall skip, exists s, decode_from step Ignore skip raw = Ok s.
Proof.
  induction raw as [|b rest IH]; intros skip; [now exists []|].
  cbn [decode_from]. destruct skip as [|skip']; [|apply IH].
  destruct (step b rest) as [c more | more]; [|apply IH].
  destruct (IH more) as [s ->]. now eexists.
Qed.

Lemma decode_from_strict_ignore (step : Byte.byte -> bytes -> decode_step)
    (raw : bytes) :
  forall skip s,
    decode_from step Strict skip raw = Ok s ->
    decode_from step Ignore skip raw = Ok s.
Proof.
  induction raw as [|b rest IH]; intros skip s; [auto|].
  cbn [decode_from]. destruct skip as [|skip']; [|apply IH].
  destruct (step b rest) as [c more | more]; [|discriminate].
  destruct (decode_from step Strict more rest) as [s'|e] eqn:E; [|discriminate].
  intros H. injection H as <-. now rewrite (IH _ _ E).
Qed.

(** C8. Decoding with the ignoring handler never raises, whatever the
    bytes: it agrees with strict decoding where that succeeds, resumes after
    an invalid sequence, and the source is then processed to the end:
    [download_and_process_aozora] returns the cleaned text. *)
Theorem decode_ignore_never_raises (W : World) (raw : bytes) :
  (exists s, decode W Ignore raw = Ok s) /\
  (forall s, decode W Strict raw = Ok s -> decode W Ignore raw = Ok s) /\
  (forall b rest more,
     raw = b :: rest -> shift_jis W b rest = Invalid more ->
     decode W Ignore raw = decode_from (shift_jis W) Ignore more rest) /\
  (forall url response z name others t,
     requests_get W url = Ok response ->
     raise_for_status response = Ok tt ->
     zip_open W (content response) = Ok z ->
     filter (endswith (lit ".txt")) (namelist z) = name :: others ->
     read z name = Ok raw ->
     exists s out,
       decode W Ignore raw = Ok s /\ clean_aozora_text s = Ok out /\
       download_and_process_aozora W url t = (Ok out, t)).
Proof.
  split; [apply decode_from_ignore_total|].
  split; [intros s; apply decode_from_strict_ignore|].
  split.
  - intros b rest more -> H. unfold decode. cbn [decode_from]. now rewrite H.
  - intros url response z name others t Hr Hs Hz Hn Hread.
    destruct (decode_from_ignore_total (shift_jis W) raw 0) as [s Hs'].
    destruct (clean_aozora_text_returns s) as [st [_ Hc]].
    exists s. eexists. split; [exact Hs'|]. split; [exact Hc|].
    rewrite download_spec. unfold text_of_source, download_log, fetch_and_clean.
    rewrite Hr. cbn [rbind]. rewrite Hs. cbn [rbind]. rewrite Hz. cbn [rbind].
    rewrite Hn, Hread. cbn [rbind]. unfold decode in Hs'. unfold decode.
    rewrite Hs'. cbn [rbind]. rewrite Hc. now rewrite app_nil_r.
Qed.

(** ** An empty cleaned text *)

Lemma last_app_nonempty {A : Type} (l1 l2 : list A) (d : A) :
  l2 <> [] -> last (l1 ++ l2) d = last l2 d.
Proof.
  intros Hne. induction l1 as [|a l1 IH]; [reflexivity|].
  cbn [app]. destruct (l1 ++ l2) eqn:E.
  - apply app_eq_nil in E. destruct E as [_ E]. congruence.
  - cbn [last]. exact IH.
Qed.

Lemma closing_events_console (full_corpus : list str) :
  console (closing_events full_corpus) <> [].
Proof. destruct full_corpus; discriminate. Qed.

(** What a run leaves depends on the non-empty texts alone. *)
Lemma main_on_outcome (W : World) (urls : list str) :
  let texts := filter truthy (map (text_of_source W) urls) in
  file_writes (snd (run (main_on W urls))) = file_writes (closing_events texts) /\
  last (console (snd (run (main_on W urls)))) []
  = last (console (closing_events texts)) [].
Proof.
  intros texts. rewrite main_on_spec. cbn [snd]. fold texts.
  pose proof (loop_events_print W urls) as Hp. split.
  - cbn [file_writes flat_map opening_event app].
    fold (file_writes (flat_map (url_events W) urls ++ closing_events texts)).
    now rewrite file_writes_app, (file_writes_prints Hp).
  - change (opening_event urls :: flat_map (url_events W) urls
            ++ closing_events texts)
      with ((opening_event urls :: flat_map (url_events W) urls)
            ++ closing_events texts).
    rewrite console_app. apply last_app_nonempty, closing_events_console.
Qed.

Lemma texts_skip_empty (W : World) (url : str) (before after : list str) :
  text_of_source W url = [] ->
  filter truthy (map (text_of_source W) (before ++ url :: after))
  = filter truthy (map (text_of_source W) (before ++ after)).
Proof.
  intros H. rewrite !map_app, !filter_app. cbn [map filter]. now rewrite H.
Qed.

(** C10. A source that is fetched, extracted and cleaned without error but
    whose cleaned text is empty: [main] appends nothing, prints the failure
    line, and the file and the total of a run are those of the run without
    that source; a source whose archive has no text entry leaves the same
    accumulator and the same events. *)
Theorem empty_text_is_reported_failed (W : World) (url : str)
    (response : Response) (z : Archive) (name : str) (others : list str)
    (raw : bytes) (s : str) :
  requests_get W url = Ok response ->
  raise_for_status response = Ok tt ->
  zip_open W (content response) = Ok z ->
  filter (endswith (lit ".txt")) (namelist z) = name :: others ->
  read z name = Ok raw ->
  decode W Ignore raw = Ok s ->
  clean_aozora_text s = Ok [] ->
  (forall t, download_and_process_aozora W url t = (Ok [], t)) /\
  (forall fc t,
     process_url W fc url t = (Ok fc, t ++ [processing_line url; failed_line])) /\
  (forall W' url' fc t,
     no_text_entry W' url' -> filename_of url' = filename_of url ->
     process_url W' fc url' t = process_url W fc url t) /\
  (forall before after,
     file_writes (snd (run (main_on W (before ++ url :: after))))
     = file_writes (snd (run (main_on W (before ++ after)))) /\
     last (console (snd (run (main_on W (before ++ url :: after))))) []
     = last (console (snd (run (main_on W (before ++ after))))) []).
Proof.
  intros Hr Hs Hz Hn Hread Hd Hc.
  assert (Hf : fetch_and_clean W url = Ok []).
  { unfold fetch_and_clean. rewrite Hr. cbn [rbind]. rewrite Hs. cbn [rbind].
    rewrite Hz. cbn [rbind]. rewrite Hn, Hread. cbn [rbind].
    rewrite Hd. cbn [rbind]. exact Hc. }
  assert (Ht : text_of_source W url = []) by (unfold text_of_source; now rewrite Hf).
  assert (Hl : download_log W url = []) by (unfold download_log; now rewrite Hf).
  assert (Hp : forall fc t,
             process_url W fc url t
             = (Ok fc, t ++ [processing_line url; failed_line])).
  { intros fc t. rewrite process_url_spec. unfold url_events.
    now rewrite Ht, Hl. }
  split; [|split; [exact Hp | split]].
  - intros t. rewrite download_spec, Ht, Hl. now rewrite app_nil_r.
  - intros W' url' fc t Hno Hname. rewrite Hp.
    assert (Hfail : local_failure W' url') by (right; right; exact Hno).
    rewrite process_url_spec. unfold url_events.
    rewrite (local_failure_text Hfail).
    destruct Hno as [r' [z' [Hr' [Hs' [Hz' Hn']]]]].
    assert (Hl' : download_log W' url' = []).
    { unfold download_log, fetch_and_clean. rewrite Hr'. cbn [rbind].
      rewrite Hs'. cbn [rbind]. rewrite Hz'. cbn [rbind].
      now rewrite (no_text_files Hn'). }
    rewrite Hl'. unfold processing_line. now rewrite Hname.
  - intros before after.
    destruct (main_on_outcome W (before ++ url :: after)) as [-> ->].
    destruct (main_on_outcome W (before ++ after)) as [-> ->].
    now rewrite (@texts_skip_empty W url before after Ht).
Qed.

(** ** A small world *)

Lemma local_failure_is_contained_witness :
  (exists log,
     download_and_process_aozora demo_world (lit "http://host/down.zip") []
     = (Ok [], [] ++ log)) /\
  (exists log,
     download_and_process_aozora demo_world (lit "http://host/missing.zip") []
     = (Ok [], [] ++ log)) /\
  (exists log,
     process_url demo_world [lit "kept"] (lit "http://host/cover.zip") []
     = (Ok [lit "kept"],
        [] ++ processing_line (lit "http://host/cover.zip")
        :: log ++ [failed_line])).
Proof.
  split; [|split].
  - apply (proj1 (proj2 (local_failure_is_contained demo_world))).
    left. eexists. vm_compute. reflexivity.
  - apply (proj1 (proj2 (local_failure_is_contained demo_world))).
    right. left. exists (mkResponse 404 []). split; [reflexivity | simpl; lia].
  - apply (proj1 (proj2 (proj2 (local_failure_is_contained demo_world)))).
    right. right. eexists. eexists.
    split; [vm_compute; reflexivity|]. split; [reflexivity|].
    split; [reflexivity|]. repeat constructor.
Defined.

Lemma decode_ignore_never_raises_witness :
  exists s out,
    decode demo_world Ignore
      (list_byte_of_string "work" ++ [Byte.xff; Byte.x0a]
       ++ list_byte_of_string "text") = Ok s /\
    clean_aozora_text s = Ok out /\
    download_and_process_aozora demo_world (lit "http://host/work.zip") []
    = (Ok out, []).
Proof.
  apply (proj2 (proj2 (proj2
           (decode_ignore_never_raises demo_world
              (list_byte_of_string "work" ++ [Byte.xff; Byte.x0a]
               ++ list_byte_of_string "text"))))
           (lit "http://host/work.zip") (mkResponse 200 [Byte.x01])
           (mkArchive [lit "readme.md"; lit "work.txt"]
              (fun _ => Ok (list_byte_of_string "work" ++ [Byte.xff; Byte.x0a]
                            ++ list_byte_of_string "text")))
           (lit "work.txt") [] []).
  - vm_compute; reflexivity.
  - reflexivity.
  - reflexivity.
  - vm_compute; reflexivity.
  - reflexivity.
Defined.

Lemma empty_text_is_reported_failed_witness :
  process_url demo_world [lit "kept"] (lit "http://host/blank.zip") []
  = (Ok [lit "kept"],
     [] ++ [processing_line (lit "http://host/blank.zip"); failed_line]).
Proof.
  apply (proj1 (proj2
           (@empty_text_is_reported_failed demo_world
              (lit "http://host/blank.zip") (mkResponse 200 [Byte.x02])
              (mkArchive [lit "blank.txt"] (fun _ => Ok [Byte.x20; Byte.x0a]))
              (lit "blank.txt") [] [Byte.x20; Byte.x0a] [SPACE; LF]
              ltac:(vm_compute; reflexivity) eq_refl eq_refl
              ltac:(vm_compute; reflexivity) eq_refl
              ltac:(vm_compute; reflexivity)
              ltac:(vm_compute; reflexivity)))).
Defined.

(** Three sources, the second without a text entry: two texts are written,
    joined by two newlines, and the second source does not stop the run. *)
Example three_sources :
  let urls := [lit "http://host/work.zip"; lit "http://host/cover.zip";
               lit "http://host/work.zip"] in
  exists t, run (main_on demo_world urls) = (Ok tt, t) /\
    file_writes t
    = [(OUTPUT_FILE, lit "work" ++ [LF] ++ lit "text" ++ [LF; LF]
                     ++ lit "work" ++ [LF] ++ lit "text")] /\
    last (console t) [] = lit "Total characters: 18" ++ [LF] /\
    In failed_line t.
Proof.
  eexists. split; [vm_compute; reflexivity|].
  split; [reflexivity|]. split; [reflexivity|].
  vm_compute. tauto.
Qed.

(** * Further properties *)

(** ** Splitting and joining *)

Lemma split_cons_sep (sep : char) (s : str) :
  split sep (sep :: s) = [] :: split sep s.
Proof. simpl. now rewrite N.eqb_refl. Qed.

Lemma split_cons_char (sep c : char) (s : str) :
  c <> sep ->
  exists l ls, split sep s = l :: ls /\ split sep (c :: s) = (c :: l) :: ls.
Proof.
  intros Hc. simpl. apply N.eqb_neq in Hc. rewrite Hc.
  destruct (split sep s) as [|l ls] eqn:E.
  - exfalso. revert E. apply split_not_nil.
  - now exists l, ls.
Qed.

(** No piece holds the separator. *)
Lemma split_no_sep (sep : char) (s : str) :
  Forall (fun l => ~ In sep l) (split sep s).
Proof.
  induction s as [|c s IH]; [repeat constructor; auto|].
  destruct (N.eq_dec c sep) as [-> | Hc].
  - rewrite split_cons_sep. constructor; auto.
  - destruct (split_cons_char s Hc) as [l [ls [E1 E2]]].
    rewrite E2. rewrite E1 in IH. inversion IH as [|? ? Hl Hls]; subst.
    constructor; [|assumption].
    intros [H | H]; [congruence | contradiction].
Qed.

(** Joining the pieces gives the string back. *)
Lemma join_split (sep : char) (s : str) : join [sep] (split sep s) = s.
Proof.
  induction s as [|c s IH]; [reflexivity|].
  destruct (N.eq_dec c sep) as [-> | Hc].
  - rewrite split_cons_sep. cbn [join].
    destruct (split sep s) as [|l ls] eqn:E; [exfalso; revert E; apply split_not_nil|].
    simpl. now rewrite <- IH.
  - destruct (split_cons_char s Hc) as [l [ls [E1 E2]]].
    rewrite E2. rewrite E1 in IH. cbn [join] in *.
    destruct ls; simpl; now rewrite <- IH.
Qed.

Lemma split_app_sep (sep : char) (pre s : str) :
  split sep (pre ++ sep :: s) = split sep pre ++ split sep s.
Proof.
  induction pre as [|c pre IH].
  - cbn [app]. now rewrite split_cons_sep.
  - cbn [app]. destruct (N.eq_dec c sep) as [-> | Hc].
    + rewrite !split_cons_sep, IH. reflexivity.
    + destruct (split_cons_char pre Hc) as [l [ls [E1 E2]]].
      destruct (split_cons_char (pre ++ sep :: s) Hc) as [l' [ls' [E1' E2']]].
      rewrite E2, E2'. rewrite IH, E1 in E1'. injection E1' as <- <-.
      reflexivity.
Qed.

Lemma split_line (sep : char) (l : str) : ~ In sep l -> split sep l = [l].
Proof.
  induction l as [|c l IH]; [reflexivity|]. intros H.
  assert (Hc : c <> sep) by (intros ->; apply H; now left).
  destruct (split_cons_char l Hc) as [l0 [ls [E1 E2]]].
  rewrite E2. rewrite IH in E1 by (intros Hin; apply H; now right).
  now injection E1 as <- <-.
Qed.

(** Splitting a join of pieces without separator gives the pieces back. *)
Lemma split_join (sep : char) (ls : list str) :
  ls <> [] -> Forall (fun l => ~ In sep l) ls ->
  split sep (join [sep] ls) = ls.
Proof.
  induction ls as [|l rest IH]; [congruence|]. intros _ HF.
  inversion HF as [|? ? Hl Hrest]; subst. cbn [join].
  destruct rest as [|l' rest'].
  - now apply split_line.
  - cbn [app]. rewrite split_app_sep, (@split_line sep l Hl).
    cbn [app]. f_equal. apply IH; [discriminate | assumption].
Qed.

(** ** The output of the cleaner, by lines *)

(** Without a break the header scan leaves the last line in [line]. *)
Lemma header_loop_last (lines : list str) :
  forall i st, lines <> [] -> separator_count st < 2 ->
    separator_count (header_loop i lines st) < 2 ->
    line (header_loop i lines st) = Some (last lines []).
Proof.
  induction lines as [|l rest IH]; intros i st Hne Hlt; [congruence|].
  rewrite header_loop_cons.
  destruct (is_rule l) eqn:Hr.
  - destruct (Nat.eqb (S (separator_count st)) 2) eqn:E.
    + cbn [separator_count]. apply Nat.eqb_eq in E. lia.
    + apply Nat.eqb_neq in E. destruct rest as [|l' rest']; [reflexivity|].
      intros H. rewrite IH; [reflexivity | discriminate | simpl; lia | exact H].
  - destruct rest as [|l' rest']; [reflexivity|].
    intros H. rewrite IH; [reflexivity | discriminate | exact Hlt | exact H].
Qed.

Lemma clean_without_header (text : str) :
  let lines := split LF (strip_markup text) in
  count_rules lines < 2 ->
  clean_aozora_text text
  = Ok (if is_colophon (last lines []) then [] else join_lines lines).
Proof.
  intros lines Hc.
  assert (Hne : lines <> []) by apply split_not_nil.
  destruct (scan_spec Hne) as [l [Hl H]].
  set (h := header_loop 0 lines (locals0 lines)) in *.
  assert (Hcount : separator_count h < 2).
  { unfold h. rewrite header_loop_count by (simpl; lia).
    cbn [separator_count locals0]. lia. }
  assert (Hstart : start_idx h = 0).
  { unfold h. rewrite header_loop_start; simpl; auto. }
  assert (Hlast : l = last lines []).
  { pose proof (@header_loop_last lines 0 (locals0 lines) Hne
                  ltac:(simpl; lia) Hcount) as Hx.
    fold h in Hx. congruence. }
  unfold clean_aozora_text. fold lines. rewrite H.
  cbn [start_idx end_idx]. rewrite Hstart, <- Hlast.
  assert (Hlen : (0 <? List.length lines) = true).
  { apply Nat.ltb_lt. destruct lines; [congruence | simpl; lia]. }
  rewrite Hlen, andb_true_r.
  destruct (is_colophon l).
  - now rewrite slice_empty.
  - rewrite slice_to_end. reflexivity.
Qed.

(** X1. A text with fewer than two rule lines has no header: all its lines
    are kept, blank ones apart, unless the last line begins with a
    colophon marker, in which case nothing is kept. *)
Theorem fewer_than_two_rules (text : str) :
  let lines := split LF (strip_markup text) in
  count_rules lines < 2 ->
  clean_aozora_text text
  = Ok (if is_colophon (last lines []) then [] else join_lines lines).
Proof. exact (clean_without_header text). Qed.

Lemma fewer_than_two_rules_witness :
  clean_aozora_text (text_of [lit "one "; RULE; lit ""; lit " two"])
  = Ok (if is_colophon
             (last (split LF (strip_markup
                      (text_of [lit "one "; RULE; lit ""; lit " two"]))) [])
        then []
        else join_lines
               (split LF (strip_markup
                  (text_of [lit "one "; RULE; lit ""; lit " two"])))).
Proof.
  apply (fewer_than_two_rules (text_of [lit "one "; RULE; lit ""; lit " two"])).
  vm_compute. lia.
Defined.

(** X2. A text whose first two rule lines close a header: the lines after
    the second rule are kept to the end of the text, whatever they are,
    unless the second rule line itself begins with a colophon marker, in
    which case nothing is kept. *)
Theorem after_two_rules (text : str) (l1 l2 rest : list str) (r1 r2 : str) :
  split LF (strip_markup text) = l1 ++ r1 :: l2 ++ r2 :: rest ->
  Forall (fun l => is_rule l = false) l1 ->
  Forall (fun l => is_rule l = false) l2 ->
  is_rule r1 = true -> is_rule r2 = true ->
  clean_aozora_text text
  = Ok (if is_colophon r2 then [] else join_lines rest).
Proof.
  intros E H1 H2 Hr1 Hr2.
  unfold clean_aozora_text. rewrite E.
  rewrite (@scan_two_rules l1 l2 rest r1 r2 H1 H2 Hr1 Hr2).
  cbn [start_idx end_idx].
  set (lines := l1 ++ r1 :: l2 ++ r2 :: rest).
  set (start := List.length l1 + 1 + List.length l2 + 1).
  assert (Hskip : skipn start lines = rest) by apply slice_after_header.
  assert (Hlen : List.length lines = start + List.length rest).
  { unfold lines, start. rewrite length_app. simpl. rewrite length_app. simpl. lia. }
  destruct (is_colophon r2); cbn [andb].
  - destruct (start <? List.length lines) eqn:Hlt.
    + now rewrite slice_empty.
    + apply Nat.ltb_ge in Hlt. rewrite slice_to_end, Hskip.
      destruct rest; [reflexivity | simpl in Hlen; lia].
  - now rewrite slice_to_end, Hskip.
Qed.

Lemma after_two_rules_witness :
  clean_aozora_text
    (text_of [lit "title"; RULE; lit "author"; RULE; lit "body";
              COLOPHON ++ lit "edition"])
  = Ok (if is_colophon RULE then []
        else join_lines [lit "body"; COLOPHON ++ lit "edition"]).
Proof.
  apply (@after_two_rules
           (text_of [lit "title"; RULE; lit "author"; RULE; lit "body";
                     COLOPHON ++ lit "edition"])
           [lit "title"] [lit "author"]
           [lit "body"; COLOPHON ++ lit "edition"] RULE RULE).
  - vm_compute; reflexivity.
  - repeat constructor.
  - repeat constructor.
  - vm_compute; reflexivity.
  - vm_compute; reflexivity.
Defined.

(** ** The lines of the output *)

Lemma rstrip_truthy (l : str) : truthy (rstrip l) = existsb nonspace l.
Proof.
  induction l as [|c t IH]; [reflexivity|]. cbn [rstrip existsb].
  destruct (rstrip t) as [|r rs].
  - simpl in IH. rewrite <- IH, orb_false_r. unfold nonspace.
    destruct (isspace c); reflexivity.
  - simpl in IH. rewrite <- IH, orb_true_r. reflexivity.
Qed.

Lemma lstrip_nonspace (l : str) :
  existsb nonspace (lstrip l) = existsb nonspace l.
Proof.
  induction l as [|c t IH]; [reflexivity|]. cbn [lstrip].
  destruct (isspace c) eqn:E; [|reflexivity].
  cbn [existsb]. unfold nonspace at 2. now rewrite E.
Qed.

(** A line is kept when it has a character that is no white space. *)
Lemma strip_truthy (l : str) : truthy (strip l) = existsb nonspace l.
Proof. unfold strip. now rewrite rstrip_truthy, lstrip_nonspace. Qed.

Lemma rstrip_nonspace (l : str) :
  existsb nonspace (rstrip l) = existsb nonspace l.
Proof.
  induction l as [|c t IH]; [reflexivity|]. cbn [rstrip].
  pose proof (rstrip_truthy t) as Ht.
  destruct (rstrip t) as [|r rs].
  - simpl in Ht. cbn [existsb]. rewrite <- Ht, orb_false_r.
    destruct (isspace c) eqn:E; cbn [existsb]; unfold nonspace; rewrite E;
      reflexivity.
  - cbn [existsb] in *. now rewrite IH.
Qed.

Lemma rstrip_idempotent (l : str) : rstrip (rstrip l) = rstrip l.
Proof.
  induction l as [|c t IH]; [reflexivity|]. cbn [rstrip].
  destruct (rstrip t) as [|r rs] eqn:E.
  - destruct (isspace c) eqn:Ec; [reflexivity|].
    cbn [rstrip]. now rewrite Ec.
  - cbn [rstrip] in *. now rewrite IH.
Qed.

Lemma kept_lines_normal (ls : list str) :
  Forall (fun l => ~ In LF l) ls ->
  Forall normal_line (map rstrip (filter (fun l => truthy (strip l)) ls)).
Proof.
  intros HF. apply Forall_forall. intros k Hk.
  apply in_map_iff in Hk. destruct Hk as [l [<- Hl]].
  apply filter_In in Hl. destruct Hl as [Hl Ht].
  eapply Forall_forall in HF; [|exact Hl].
  split; [|split].
  - rewrite strip_truthy, rstrip_nonspace, <- strip_truthy. exact Ht.
  - apply rstrip_idempotent.
  - intros Hin. apply HF. now apply rstrip_in.
Qed.

Lemma join_lines_normal (ls : list str) :
  Forall normal_line ls -> join_lines ls = join [LF] ls.
Proof.
  intros HF. unfold join_lines. f_equal.
  induction HF as [|l ls [Ht [Hr _]] _ IH]; [reflexivity|].
  cbn [filter]. rewrite Ht. cbn [map]. now rewrite Hr, IH.
Qed.

(** The output is empty or splits into lines in normal form. *)
Lemma clean_output_lines (text : str) :
  exists out, clean_aozora_text text = Ok out /\
    (out = [] \/ Forall normal_line (split LF out)).
Proof.
  destruct (clean_aozora_text_returns text) as [st [_ H]].
  eexists. split; [exact H|].
  set (kept := slice (start_idx st) (end_idx st) (split LF (strip_markup text))).
  assert (HF : Forall (fun l => ~ In LF l) kept).
  { apply Forall_forall. intros l Hl. apply slice_in in Hl.
    pose proof (split_no_sep LF (strip_markup text)) as Hs.
    eapply Forall_forall in Hs; [exact Hs | exact Hl]. }
  apply kept_lines_normal in HF. unfold join_lines.
  destruct (map rstrip (filter (fun l => truthy (strip l)) kept)) as [|k ks] eqn:E.
  - now left.
  - right. rewrite split_join; [exact HF | discriminate |].
    eapply Forall_impl; [|exact HF]. intros l Hl. apply Hl.
Qed.

Lemma blank_line_of_double_newline (out : str) :
  contains [LF; LF] out = true -> In [] (split LF out).
Proof.
  intros H. apply contains_spec in H. destruct H as [pre [post ->]].
  cbn [app]. rewrite split_app_sep, split_cons_sep.
  apply in_or_app. right. now left.
Qed.

(** X3. Every line of the output is in normal form: it has a character
    that is no white space and no white space at its end; so the output has
    no empty line, that is, no two newlines in a row. *)
Theorem output_lines_are_normal (text : str) :
  exists out, clean_aozora_text text = Ok out /\
    (out = [] \/
     Forall (fun l => truthy (strip l) = true /\ rstrip l = l) (split LF out)) /\
    contains [LF; LF] out = false.
Proof.
  destruct (clean_output_lines text) as [out [H Hn]].
  exists out. split; [exact H|]. split.
  - destruct Hn as [-> | Hn]; [now left | right].
    eapply Forall_impl; [|exact Hn]. intros l [H1 [H2 _]]. auto.
  - destruct Hn as [-> | Hn]; [reflexivity|].
    destruct (contains [LF; LF] out) eqn:E; [|reflexivity].
    apply blank_line_of_double_newline in E.
    eapply Forall_forall in Hn; [|exact E].
    destruct Hn as [Ht _]. discriminate.
Qed.

Lemma join_lines_of_output (text u : str) :
  clean_aozora_text text = Ok u -> join_lines (split LF u) = u.
Proof.
  intros H. destruct (clean_output_lines text) as [out [H' Hn]].
  assert (out = u) by congruence. subst out.
  destruct Hn as [-> | Hn]; [reflexivity|].
  rewrite (join_lines_normal Hn). apply join_split.
Qed.

(** X4. A second run changes nothing when the first output has nothing
    left for the substitutions, fewer than two rule lines and a last line
    that is no colophon line. *)
Theorem clean_twice_same (text u : str) :
  clean_aozora_text text = Ok u ->
  strip_markup u = u ->
  count_rules (split LF u) < 2 ->
  is_colophon (last (split LF u) []) = false ->
  clean_aozora_text u = Ok u.
Proof.
  intros H Hm Hc Hl.
  pose proof (clean_without_header u) as Hu. cbv zeta in Hu.
  rewrite Hm in Hu. rewrite (Hu Hc), Hl.
  now rewrite (@join_lines_of_output text u H).
Qed.

Lemma clean_twice_same_witness :
  clean_aozora_text (text_of [lit "one"; lit "two"; lit "three"])
  = Ok (text_of [lit "one"; lit "two"; lit "three"]).
Proof.
  apply (@clean_twice_same
           (text_of [lit "title"; RULE; lit "author"; RULE;
                     lit "one "; lit ""; lit "two"; lit "three"; lit ""])
           (text_of [lit "one"; lit "two"; lit "three"])).
  - vm_compute; reflexivity.
  - vm_compute; reflexivity.
  - vm_compute; lia.
  - vm_compute; reflexivity.
Defined.

(** ** The cleaner only deletes *)

Lemma subseq_nil_l {A : Type} (s : list A) : subseq [] s.
Proof. induction s; constructor; assumption. Qed.

Lemma subseq_refl {A : Type} (s : list A) : subseq s s.
Proof. induction s; constructor; assumption. Qed.

Lemma subseq_trans {A : Type} (a b c : list A) :
  subseq a b -> subseq b c -> subseq a c.
Proof.
  intros Hab Hbc. revert a Hab.
  induction Hbc as [|x b c _ IH|x b c _ IH]; intros a Hab.
  - exact Hab.
  - constructor. now apply IH.
  - inversion Hab as [|y a' b' H|y a' b' H]; subst.
    + apply subseq_skip. now apply IH.
    + apply subseq_keep. now apply IH.
Qed.

Lemma subseq_app {A : Type} (a b c d : list A) :
  subseq a b -> subseq c d -> subseq (a ++ c) (b ++ d).
Proof.
  intros Hab Hcd. induction Hab; simpl; try constructor; assumption.
Qed.

Lemma subseq_app_skip {A : Type} (d out s : list A) :
  subseq out s -> subseq out (d ++ s).
Proof. intros H. induction d; simpl; [|constructor]; assumption. Qed.

Lemma subseq_nil_r {A : Type} (out : list A) : subseq out [] -> out = [].
Proof. intros H. inversion H. reflexivity. Qed.

Lemma subseq_length {A : Type} (out s : list A) :
  subseq out s -> List.length out <= List.length s.
Proof. induction 1; simpl; lia. Qed.

Lemma subseq_filter {A : Type} (f : A -> bool) (s : list A) :
  subseq (filter f s) s.
Proof.
  induction s as [|x s IH]; simpl; [constructor|].
  destruct (f x); constructor; assumption.
Qed.

Lemma subseq_firstn {A : Type} (n : nat) (s : list A) : subseq (firstn n s) s.
Proof.
  revert s. induction n as [|n IH]; intros [|x s]; simpl.
  - constructor.
  - apply subseq_nil_l.
  - constructor.
  - apply subseq_keep, IH.
Qed.

Lemma subseq_skipn {A : Type} (n : nat) (s : list A) : subseq (skipn n s) s.
Proof.
  revert s. induction n as [|n IH]; intros [|x s]; simpl.
  - constructor.
  - apply subseq_refl.
  - constructor.
  - apply subseq_skip, IH.
Qed.

Lemma sub_span_subseq (opn : str) (cls : char) (s : str) :
  subseq (sub_span opn cls s) s.
Proof.
  apply (sub_span_ind opn cls (fun s out => subseq out s)).
  - constructor.
  - intros s0 rest E IH. apply match_span_shorter in E.
    destruct E as [_ [d ->]]. now apply subseq_app_skip.
  - intros c s0 _ IH. apply subseq_keep, IH.
Qed.

Lemma strip_markup_subseq (text : str) : subseq (strip_markup text) text.
Proof.
  unfold strip_markup.
  eapply subseq_trans; [apply subseq_filter|].
  eapply subseq_trans; apply sub_span_subseq.
Qed.

Lemma rstrip_subseq (l : str) : subseq (rstrip l) l.
Proof.
  induction l as [|c t IH]; [constructor|]. cbn [rstrip].
  destruct (rstrip t) as [|r rs].
  - destruct (isspace c); [apply subseq_nil_l|].
    apply subseq_keep, subseq_nil_l.
  - apply subseq_keep, IH.
Qed.

(** Lines left out, and the others trimmed: characters left out. *)
Lemma join_rstrip_subseq (ks ls : list str) :
  subseq ks ls -> subseq (join [LF] (map rstrip ks)) (join [LF] ls).
Proof.
  induction 1 as [|x ks ls H IH|x ks ls H IH].
  - constructor.
  - cbn [join]. destruct ls as [|l ls'].
    + apply subseq_nil_r in H. subst ks. apply subseq_nil_l.
    + now apply subseq_app_skip, subseq_app_skip.
  - cbn [map join]. destruct ks as [|k ks'].
    + cbn [map]. destruct ls as [|l ls'].
      * apply rstrip_subseq.
      * rewrite <- (app_nil_r (rstrip x)).
        apply subseq_app; [apply rstrip_subseq | apply subseq_nil_l].
    + cbn [map] in *. destruct ls as [|l ls'].
      * apply subseq_nil_r in H. discriminate.
      * apply subseq_app; [apply rstrip_subseq|].
        apply subseq_app; [apply subseq_refl | exact IH].
Qed.

Lemma join_lines_subseq (a b : nat) (lines : list str) :
  subseq (join_lines (slice a b lines)) (join [LF] lines).
Proof.
  unfold join_lines, slice. apply join_rstrip_subseq.
  eapply subseq_trans; [apply subseq_filter|].
  eapply subseq_trans; [apply subseq_skipn | apply subseq_firstn].
Qed.

(** X5. The cleaner only deletes: its output is the text with some
    characters left out, none added, none moved. *)
Theorem cleaner_only_deletes (text : str) :
  exists out, clean_aozora_text text = Ok out /\
    subseq out text /\ List.length out <= List.length text.
Proof.
  destruct (clean_aozora_text_returns text) as [st [_ H]].
  eexists. split; [exact H|].
  assert (Hs : subseq (join_lines (slice (start_idx st) (end_idx st)
                                     (split LF (strip_markup text)))) text).
  { eapply subseq_trans; [apply join_lines_subseq|].
    rewrite join_split. apply strip_markup_subseq. }
  split; [exact Hs | now apply subseq_length].
Qed.

(** ** What the substitutions remove and what they keep *)

(** Characters before the first opening character are copied. *)
Lemma sub_span_prefix (o : char) (opn : str) (cls : char) (a s : str) :
  ~ In o a ->
  sub_span (o :: opn) cls (a ++ s) = a ++ sub_span (o :: opn) cls s.
Proof.
  induction a as [|c a IH]; intros H; [reflexivity|].
  cbn [app]. rewrite sub_span_skip.
  - f_equal. apply IH. intros Hin. apply H. now right.
  - unfold match_span. cbn [strip_prefix].
    destruct (N.eqb o c) eqn:E; [|reflexivity].
    apply N.eqb_eq in E. exfalso. apply H. now left.
Qed.

(** A span at the head is removed. *)
Lemma sub_span_removes (opn : str) (cls : char) (y b : str) :
  y <> [] -> ~ In cls y ->
  sub_span opn cls (opn ++ y ++ cls :: b) = sub_span opn cls b.
Proof.
  intros Hne Hy. apply sub_span_match. apply match_span_spec.
  now exists y.
Qed.

Lemma sub_span_plain (o : char) (opn : str) (cls : char) (s : str) :
  ~ In o s -> sub_span (o :: opn) cls s = s.
Proof.
  intros H. rewrite <- (app_nil_r s) at 1.
  rewrite sub_span_prefix by assumption. now rewrite sub_span_nil, app_nil_r.
Qed.

Lemma sub_char_app (c : char) (a b : str) :
  sub_char c (a ++ b) = sub_char c a ++ sub_char c b.
Proof. unfold sub_char. apply filter_app. Qed.

Lemma sub_char_plain (c : char) (s : str) : ~ In c s -> sub_char c s = s.
Proof.
  induction s as [|x s IH]; intros H; [reflexivity|]. simpl.
  destruct (N.eqb x c) eqn:E.
  - apply N.eqb_eq in E. exfalso. apply H. now left.
  - simpl. f_equal. apply IH. intros Hin. apply H. now right.
Qed.

(** X6. A ruby span is removed with its brackets and the text before it
    is kept, the separator glyph apart: for [a] without opening ruby or
    note bracket and a reading [y] of one character at least without the
    closing bracket, cleaning [a], the span and [b] gives [a] without the
    glyph, then [b] cleaned. *)
Theorem ruby_span_removed (a y b : str) :
  ~ In RUBY_OPEN a -> ~ In NOTE_OPEN a ->
  y <> [] -> ~ In RUBY_CLOSE y ->
  strip_markup (a ++ RUBY_OPEN :: y ++ RUBY_CLOSE :: b)
  = sub_char RUBY_BAR a ++ strip_markup b.
Proof.
  intros Ha1 Ha2 Hne Hy. unfold strip_markup.
  rewrite sub_span_prefix by assumption.
  change (RUBY_OPEN :: y ++ RUBY_CLOSE :: b)
    with ([RUBY_OPEN] ++ y ++ RUBY_CLOSE :: b).
  rewrite sub_span_removes by assumption.
  rewrite sub_span_prefix by assumption.
  apply sub_char_app.
Qed.

Lemma ruby_span_removed_witness :
  strip_markup ([RUBY_BAR] ++ lit "kanji" ++ RUBY_OPEN :: lit "reading"
                ++ RUBY_CLOSE :: lit " and more")
  = sub_char RUBY_BAR ([RUBY_BAR] ++ lit "kanji") ++ strip_markup (lit " and more").
Proof.
  change ([RUBY_BAR] ++ lit "kanji" ++ RUBY_OPEN :: lit "reading"
          ++ RUBY_CLOSE :: lit " and more")
    with (([RUBY_BAR] ++ lit "kanji") ++ RUBY_OPEN :: lit "reading"
          ++ RUBY_CLOSE :: lit " and more").
  apply ruby_span_removed.
  - vm_compute. intuition discriminate.
  - vm_compute. intuition discriminate.
  - discriminate.
  - vm_compute. intuition discriminate.
Defined.

(** X7. A note is removed with its brackets and the text before it is
    kept, the separator glyph apart: for [a] without opening ruby or note
    bracket and a note text [y] of one character at least without the
    closing note bracket and without opening ruby bracket. *)
Theorem note_removed (a y b : str) :
  ~ In RUBY_OPEN a -> ~ In NOTE_OPEN a ->
  y <> [] -> ~ In NOTE_CLOSE y -> ~ In RUBY_OPEN y ->
  strip_markup (a ++ NOTE_OPEN :: NOTE_SHARP :: y ++ NOTE_CLOSE :: b)
  = sub_char RUBY_BAR a ++ strip_markup b.
Proof.
  intros Ha1 Ha2 Hne Hy1 Hy2. unfold strip_markup.
  rewrite sub_span_prefix by assumption.
  replace (NOTE_OPEN :: NOTE_SHARP :: y ++ NOTE_CLOSE :: b)
    with ((NOTE_OPEN :: NOTE_SHARP :: y ++ [NOTE_CLOSE]) ++ b)
    by (simpl; rewrite <- app_assoc; reflexivity).
  rewrite (@sub_span_prefix RUBY_OPEN [] RUBY_CLOSE
             (NOTE_OPEN :: NOTE_SHARP :: y ++ [NOTE_CLOSE])).
  - rewrite sub_span_prefix by assumption.
    replace ((NOTE_OPEN :: NOTE_SHARP :: y ++ [NOTE_CLOSE])
             ++ sub_span [RUBY_OPEN] RUBY_CLOSE b)
      with ([NOTE_OPEN; NOTE_SHARP] ++ y ++ NOTE_CLOSE
            :: sub_span [RUBY_OPEN] RUBY_CLOSE b)
      by (simpl; rewrite <- app_assoc; reflexivity).
    rewrite sub_span_removes by assumption.
    apply sub_char_app.
  - intros [H | [H | H]]; try discriminate.
    apply in_app_or in H. destruct H as [H | [H | []]];
      [contradiction | discriminate].
Qed.

Lemma note_removed_witness :
  strip_markup (lit "text" ++ NOTE_OPEN :: NOTE_SHARP :: lit "indent 2"
                ++ NOTE_CLOSE :: lit " more")
  = sub_char RUBY_BAR (lit "text") ++ strip_markup (lit " more").
Proof.
  apply note_removed.
  - vm_compute. intuition discriminate.
  - vm_compute. intuition discriminate.
  - discriminate.
  - vm_compute. intuition discriminate.
  - vm_compute. intuition discriminate.
Defined.

(** X8. A text without opening ruby bracket, opening note bracket and
    separator glyph goes through the three substitutions unchanged. *)
Theorem plain_text_unchanged (text : str) :
  ~ In RUBY_OPEN text -> ~ In NOTE_OPEN text -> ~ In RUBY_BAR text ->
  strip_markup text = text.
Proof.
  intros H1 H2 H3. unfold strip_markup.
  rewrite (@sub_span_plain RUBY_OPEN [] RUBY_CLOSE text H1).
  rewrite (@sub_span_plain NOTE_OPEN [NOTE_SHARP] NOTE_CLOSE text H2).
  now apply sub_char_plain.
Qed.

Lemma plain_text_unchanged_witness :
  strip_markup (lit "plain text" ++ [RUBY_CLOSE; NOTE_CLOSE])
  = lit "plain text" ++ [RUBY_CLOSE; NOTE_CLOSE].
Proof.
  apply plain_text_unchanged; vm_compute; intuition discriminate.
Defined.

(** ** The outcomes of one download *)

Lemma filter_nil_forall {A : Type} (f : A -> bool) (l : list A) :
  filter f l = [] -> Forall (fun x => f x = false) l.
Proof.
  induction l as [|x l IH]; [constructor|]. cbn [filter].
  destruct (f x) eqn:E; [discriminate|]. intros H. constructor; auto.
Qed.

Lemma raises_at_fetch (W : World) (url : str) (e : exn) :
  raises_at W url e -> fetch_and_clean W url = Raise e.
Proof.
  unfold fetch_and_clean.
  intros [H | [[r [Hr Hs]] | [[r [Hr [Hs Hz]]] | [r [z [n [o [Hr [Hs [Hz [Hn Hread]]]]]]]]]]].
  - now rewrite H.
  - rewrite Hr. cbn [rbind]. now rewrite Hs.
  - rewrite Hr. cbn [rbind]. rewrite Hs. cbn [rbind]. now rewrite Hz.
  - rewrite Hr. cbn [rbind]. rewrite Hs. cbn [rbind]. rewrite Hz. cbn [rbind].
    rewrite Hn. now rewrite Hread.
Qed.

Lemma reads_entry_fetch (W : World) (url : str) (raw : bytes) :
  reads_entry W url raw ->
  exists s out, decode W Ignore raw = Ok s /\ clean_aozora_text s = Ok out /\
    fetch_and_clean W url = Ok out.
Proof.
  intros [r [z [n [o [Hr [Hs [Hz [Hn Hread]]]]]]]].
  destruct (decode_from_ignore_total (shift_jis W) raw 0) as [s Hd].
  destruct (clean_aozora_text_returns s) as [st [_ Hc]].
  exists s. eexists. split; [exact Hd|]. split; [exact Hc|].
  unfold fetch_and_clean.
  rewrite Hr. cbn [rbind]. rewrite Hs. cbn [rbind]. rewrite Hz. cbn [rbind].
  rewrite Hn, Hread. cbn [rbind]. unfold decode. unfold decode in Hd.
  rewrite Hd. cbn [rbind]. exact Hc.
Qed.

Lemma source_cases (W : World) (url : str) :
  (exists e, raises_at W url e) \/ no_text_entry W url
  \/ (exists raw, reads_entry W url raw).
Proof.
  unfold raises_at, no_text_entry, reads_entry.
  destruct (requests_get W url) as [r|e] eqn:Hr; [|left; exists e; now left].
  destruct (raise_for_status r) as [[]|e] eqn:Hs;
    [|left; exists e; right; left; now exists r].
  destruct (zip_open W (content r)) as [z|e] eqn:Hz;
    [|left; exists e; right; right; left; now exists r].
  destruct (filter (endswith (lit ".txt")) (namelist z)) as [|n o] eqn:Hn.
  - right. left. exists r, z. repeat split; auto.
    now apply filter_nil_forall.
  - destruct (read z n) as [raw|e] eqn:Hread.
    + right. right. exists raw, r, z, n, o. auto.
    + left. exists e. right. right. right. exists r, z, n, o. auto.
Qed.

(** X9. One call of [download_and_process_aozora] ends in one of three
    ways.  An exception at any stage (request, status, opening the
    archive, reading the entry) gives the empty string and one line with
    the URL and the exception; an archive without text entry gives the
    empty string and prints nothing; otherwise the bytes of the first text
    entry are decoded and cleaned, and nothing is printed.  Decoding and
    cleaning add no failure of their own. *)
Theorem download_outcomes (W : World) (url : str) :
  (forall e t, raises_at W url e ->
     download_and_process_aozora W url t = (Ok [], t ++ [error_line W url e])) /\
  (forall t, no_text_entry W url ->
     download_and_process_aozora W url t = (Ok [], t)) /\
  (forall raw t, reads_entry W url raw ->
     exists s out, decode W Ignore raw = Ok s /\ clean_aozora_text s = Ok out /\
       download_and_process_aozora W url t = (Ok out, t)) /\
  ((exists e, raises_at W url e) \/ no_text_entry W url
   \/ (exists raw, reads_entry W url raw)).
Proof.
  split; [|split; [|split]].
  - intros e t H. rewrite download_spec. unfold text_of_source, download_log.
    now rewrite (raises_at_fetch H).
  - intros t [r [z [Hr [Hs [Hz Hn]]]]].
    rewrite download_spec. unfold text_of_source, download_log, fetch_and_clean.
    rewrite Hr. cbn [rbind]. rewrite Hs. cbn [rbind]. rewrite Hz. cbn [rbind].
    rewrite (no_text_files Hn). now rewrite app_nil_r.
  - intros raw t H. destruct (reads_entry_fetch H) as [s [out [Hd [Hc Hf]]]].
    exists s, out. split; [exact Hd|]. split; [exact Hc|].
    rewrite download_spec. unfold text_of_source, download_log.
    rewrite Hf. now rewrite app_nil_r.
  - apply source_cases.
Qed.

Lemma download_outcomes_witness :
  download_and_process_aozora demo_world (lit "http://host/cover.zip") []
  = (Ok [], []) /\
  download_and_process_aozora demo_world (lit "http://host/bad.zip") []
  = (Ok [], [] ++ [error_line demo_world (lit "http://host/bad.zip")
                     (RequestException (lit "connection refused"))]).
Proof.
  split.
  - apply (proj1 (proj2 (download_outcomes demo_world (lit "http://host/cover.zip")))).
    eexists. eexists. split; [vm_compute; reflexivity|].
    split; [reflexivity|]. split; [reflexivity|]. repeat constructor.
  - apply (proj1 (download_outcomes demo_world (lit "http://host/bad.zip"))).
    left. vm_compute. reflexivity.
Defined.

(** ** A source that gives a text *)

Lemma replace_no_old (a b : char) (s : str) : a <> b -> ~ In a (replace a b s).
Proof.
  intros Hab. unfold replace. intros H. apply in_map_iff in H.
  destruct H as [c [Hc _]]. destruct (N.eqb c a) eqn:E.
  - congruence.
  - apply N.eqb_neq in E. congruence.
Qed.

(** X10. A source that gives a non-empty text: the text is appended at the
    end of the accumulator, and exactly three lines are printed: the
    progress line, the success line and the preview.  The preview holds
    the first 50 characters of the text (all of it when shorter) with each
    newline replaced by a space, so it has no newline. *)
Theorem successful_source (W : World) (url : str) (fc : list str) (t : trace) :
  text_of_source W url <> [] ->
  process_url W fc url t
  = (Ok (fc ++ [text_of_source W url]),
     t ++ [processing_line url; done_line;
           sample_line (text_of_source W url)]) /\
  ~ In LF (sample_of (text_of_source W url)) /\
  List.length (sample_of (text_of_source W url))
  = Nat.min 50 (List.length (text_of_source W url)).
Proof.
  intros Hne. split; [|split].
  - rewrite process_url_spec. unfold url_events.
    assert (Hl : download_log W url = []).
    { unfold download_log. unfold text_of_source in Hne.
      destruct (fetch_and_clean W url); [reflexivity | congruence]. }
    rewrite Hl. destruct (text_of_source W url); [congruence | reflexivity].
  - apply replace_no_old. discriminate.
  - unfold sample_of, replace. now rewrite length_map, length_firstn.
Qed.

Lemma successful_source_witness :
  process_url demo_world [lit "kept"] (lit "http://host/work.zip") []
  = (Ok ([lit "kept"] ++ [text_of_source demo_world (lit "http://host/work.zip")]),
     [] ++ [processing_line (lit "http://host/work.zip"); done_line;
            sample_line (text_of_source demo_world (lit "http://host/work.zip"))]).
Proof.
  apply (@successful_source demo_world (lit "http://host/work.zip")
           [lit "kept"] []).
  vm_compute. discriminate.
Defined.

(** ** The length of the corpus *)

Lemma join_length (sep : str) (ls : list str) :
  List.length (join sep ls)
  = list_sum (map (@List.length char) ls)
    + List.length sep * (List.length ls - 1).
Proof.
  induction ls as [|l rest IH]; [simpl; lia|].
  cbn [join]. destruct rest as [|l' rest'].
  - simpl. lia.
  - rewrite !length_app, IH.
    change (list_sum (map (@List.length char) (l :: l' :: rest')))
      with (List.length l + list_sum (map (@List.length char) (l' :: rest'))).
    generalize (list_sum (map (@List.length char) (l' :: rest'))).
    generalize (List.length sep). generalize (List.length l).
    cbn [List.length]. intros a k s.
    replace (S (S (List.length rest')) - 1)
      with (S (S (List.length rest') - 1)) by lia.
    rewrite Nat.mul_succ_r. lia.
Qed.

(** X11. When a file is written, the total that [main] prints is the
    number of characters of the file less the separators: the file has two
    characters more for each text after the first. *)
Theorem total_and_file_length (W : World) (urls : list str) :
  let texts := filter truthy (map (text_of_source W) urls) in
  let total := list_sum (map (@List.length char) texts) in
  texts <> [] ->
  exists corpus,
    file_writes (snd (run (main_on W urls))) = [(OUTPUT_FILE, corpus)] /\
    last (console (snd (run (main_on W urls)))) []
    = (lit "Total characters: " ++ str_of_nat total) ++ [LF] /\
    List.length corpus = total + 2 * (List.length texts - 1).
Proof.
  intros texts total Hne.
  destruct (main_on_outcome W urls) as [Hw Hc]. fold texts in Hw, Hc.
  exists (join [LF; LF] texts). rewrite Hw, Hc.
  destruct texts as [|x xs] eqn:E; [congruence|].
  split; [reflexivity|]. split; [reflexivity|].
  rewrite join_length. unfold total. simpl List.length. lia.
Qed.

Lemma total_and_file_length_witness :
  exists corpus,
    file_writes (snd (run (main_on demo_world
                             [lit "http://host/work.zip"; lit "http://host/work.zip"])))
    = [(OUTPUT_FILE, corpus)] /\
    last (console (snd (run (main_on demo_world
                               [lit "http://host/work.zip"; lit "http://host/work.zip"])))) []
    = (lit "Total characters: "
       ++ str_of_nat
            (list_sum (map (@List.length char)
               (filter truthy
                  (map (text_of_source demo_world)
                     [lit "http://host/work.zip"; lit "http://host/work.zip"])))))
      ++ [LF] /\
    List.length corpus
    = list_sum (map (@List.length char)
        (filter truthy
           (map (text_of_source demo_world)
              [lit "http://host/work.zip"; lit "http://host/work.zip"])))
      + 2 * (List.length
               (filter truthy
                  (map (text_of_source demo_world)
                     [lit "http://host/work.zip"; lit "http://host/work.zip"])) - 1).
Proof.
  apply (@total_and_file_length demo_world
           [lit "http://host/work.zip"; lit "http://host/work.zip"]).
  vm_compute. discriminate.
Defined.

(** ** The name in the progress line *)

Lemma join_snoc (sep : char) (ls : list str) (l : str) :
  join [sep] (ls ++ [l])
  = match ls with
    | [] => l
    | _ :: _ => join [sep] ls ++ sep :: l
    end.
Proof.
  induction ls as [|x ls IH]; [reflexivity|].
  cbn [app join]. destruct ls as [|y ls'].
  - reflexivity.
  - cbn [app] in *. rewrite IH. cbn [join app].
    rewrite <- !app_assoc. reflexivity.
Qed.

(** X12. The name printed for a source is the part of the URL after its
    last slash: it has no slash, and the URL is that name alone or
    something that ends with a slash followed by the name. *)
Theorem filename_after_last_slash (url : str) :
  ~ In SLASH (filename_of url) /\
  (url = filename_of url \/ exists p, url = p ++ SLASH :: filename_of url).
Proof.
  unfold filename_of.
  pose proof (split_no_sep SLASH url) as HF.
  pose proof (join_split SLASH url) as J.
  destruct (exists_last (@split_not_nil SLASH url)) as [rl [name E]].
  rewrite E in HF, J |- *. rewrite last_last. split.
  - eapply Forall_forall in HF; [exact HF|].
    apply in_or_app. right. now left.
  - rewrite join_snoc in J. destruct rl as [|x xs].
    + left. now symmetry.
    + right. eexists. symmetry. exact J.
Qed.

(** ** The works in the corpus *)

Lemma normal_line_nonempty (l : str) : normal_line l -> l <> [].
Proof. intros [H _] ->. discriminate. Qed.

Lemma paragraphs_block (L M : list str) :
  Forall (fun l => l <> []) L ->
  paragraphs (L ++ [] :: M) = L :: paragraphs M.
Proof.
  induction 1 as [|l L Hl _ IH]; [reflexivity|].
  destruct l as [|c l]; [congruence|].
  cbn [app paragraphs]. now rewrite IH.
Qed.

Lemma paragraphs_single (L : list str) :
  Forall (fun l => l <> []) L -> paragraphs L = [L].
Proof.
  induction 1 as [|l L Hl _ IH]; [reflexivity|].
  destruct l as [|c l]; [congruence|].
  cbn [paragraphs]. now rewrite IH.
Qed.

(** Cutting the corpus at its blank lines gives the texts back, when each
    text is non-empty and in normal form. *)
Lemma works_of_join (texts : list str) :
  texts <> [] ->
  Forall (fun u => Forall normal_line (split LF u)) texts ->
  works_of (join [LF; LF] texts) = texts.
Proof.
  unfold works_of.
  induction texts as [|u rest IH]; [congruence|]. intros _ HF.
  inversion HF as [|? ? Hu Hrest]; subst.
  assert (Hne : Forall (fun l => l <> []) (split LF u)).
  { eapply Forall_impl; [|exact Hu]. apply normal_line_nonempty. }
  cbn [join]. destruct rest as [|u' rest'].
  - rewrite (paragraphs_single Hne). cbn [map]. now rewrite join_split.
  - cbn [app]. rewrite split_app_sep, split_cons_sep.
    rewrite (paragraphs_block _ Hne). cbn [map].
    rewrite join_split. f_equal. apply IH; [discriminate | assumption].
Qed.

(** What a source gives is empty or an output of the cleaner. *)
Lemma text_of_source_cleaned (W : World) (url : str) :
  text_of_source W url = []
  \/ exists text, clean_aozora_text text = Ok (text_of_source W url).
Proof.
  unfold text_of_source.
  destruct (source_cases W url) as [[e H] | [H | [raw H]]].
  - left. now rewrite (raises_at_fetch H).
  - left. assert (Hf : local_failure W url) by (right; right; exact H).
    apply (local_failure_text Hf).
  - right. destruct (reads_entry_fetch H) as [s [out [_ [Hc Hf]]]].
    exists s. now rewrite Hf.
Qed.

Lemma collected_texts_normal (W : World) (urls : list str) :
  Forall (fun u => Forall normal_line (split LF u))
    (filter truthy (map (text_of_source W) urls)).
Proof.
  apply Forall_forall. intros u Hu. apply filter_In in Hu.
  destruct Hu as [Hu Ht]. apply in_map_iff in Hu. destruct Hu as [url [<- _]].
  destruct (text_of_source_cleaned W url) as [E | [text Hc]].
  - rewrite E in Ht. discriminate.
  - destruct (clean_output_lines text) as [out [Hc' [E | Hn]]].
    + rewrite Hc in Hc'. injection Hc' as Hc'. rewrite Hc', E in Ht. discriminate.
    + rewrite Hc in Hc'. injection Hc' as ->. exact Hn.
Qed.

(** X13. The corpus file tells the works apart: two runs that write the
    same (or both write nothing) have collected the same list of texts.
    No cleaned text has an empty line, so the blank lines of the file are
    the separators and nothing else. *)
Theorem corpus_determines_works (W1 W2 : World) (urls1 urls2 : list str) :
  file_writes (snd (run (main_on W1 urls1)))
  = file_writes (snd (run (main_on W2 urls2))) ->
  filter truthy (map (text_of_source W1) urls1)
  = filter truthy (map (text_of_source W2) urls2).
Proof.
  destruct (main_on_outcome W1 urls1) as [-> _].
  destruct (main_on_outcome W2 urls2) as [-> _].
  pose proof (collected_texts_normal W1 urls1) as H1.
  pose proof (collected_texts_normal W2 urls2) as H2.
  destruct (filter truthy (map (text_of_source W1) urls1)) as [|x xs];
    destruct (filter truthy (map (text_of_source W2) urls2)) as [|y ys];
    cbn [closing_events file_writes flat_map app]; intros E;
    try reflexivity; try discriminate.
  injection E as E.
  assert (E' : join [LF; LF] (x :: xs) = join [LF; LF] (y :: ys)) by exact E.
  transitivity (works_of (join [LF; LF] (x :: xs))).
  - symmetry. apply works_of_join; [discriminate | assumption].
  - rewrite E'. apply works_of_join; [discriminate | assumption].
Qed.

Lemma corpus_determines_works_witness :
  filter truthy (map (text_of_source demo_world)
                   [lit "http://host/work.zip"; lit "http://host/cover.zip"])
  = filter truthy (map (text_of_source demo_world)
                     [lit "http://host/missing.zip"; lit "http://host/work.zip"]).
Proof.
  apply corpus_determines_works. vm_compute. reflexivity.
Defined.

(** ** Blank texts and the bounds of the slice *)

Lemma subseq_in {A : Type} (out s : list A) (x : A) :
  subseq out s -> In x out -> In x s.
Proof.
  induction 1 as [|y out s _ IH|y out s _ IH]; intros H.
  - exact H.
  - right. auto.
  - destruct H as [-> | H]; [now left | right; auto].
Qed.

Lemma blank_line_dropped (l : str) :
  Forall (fun c => isspace c = true) l -> truthy (strip l) = false.
Proof.
  intros H. rewrite strip_truthy.
  induction H as [|c l Hc _ IH]; [reflexivity|].
  cbn [existsb]. unfold nonspace at 1. now rewrite Hc, IH.
Qed.

(** X14. A text made of white space only, the empty text included, gives
    the empty string. *)
Theorem blank_text_gives_empty (text : str) :
  Forall (fun c => isspace c = true) text ->
  clean_aozora_text text = Ok [].
Proof.
  intros Hw.
  destruct (clean_aozora_text_returns text) as [st [_ H]].
  rewrite H. f_equal. unfold join_lines.
  set (kept := slice (start_idx st) (end_idx st) (split LF (strip_markup text))).
  assert (E : filter (fun l => truthy (strip l)) kept = []).
  { destruct (filter (fun l => truthy (strip l)) kept) as [|l ls] eqn:E;
      [reflexivity|].
    assert (Hl : In l (filter (fun l => truthy (strip l)) kept))
      by (rewrite E; now left).
    apply filter_In in Hl. destruct Hl as [Hl Ht].
    apply slice_in in Hl.
    rewrite blank_line_dropped in Ht; [discriminate|].
    apply Forall_forall. intros c Hc.
    eapply Forall_forall in Hw; [exact Hw|].
    apply (@subseq_in _ (strip_markup text) text c (strip_markup_subseq text)).
    eapply split_in; eauto. }
  now rewrite E.
Qed.

Lemma blank_text_gives_empty_witness :
  clean_aozora_text [SPACE; LF; 0x3000%N; 13%N; LF] = Ok [].
Proof.
  apply blank_text_gives_empty. repeat constructor.
Defined.

Lemma header_loop_start_le (lines : list str) :
  forall i st, start_idx st <= i + List.length lines ->
    start_idx (header_loop i lines st) <= i + List.length lines.
Proof.
  induction lines as [|l rest IH]; intros i st H; [exact H|].
  rewrite header_loop_cons. cbn [List.length] in *.
  destruct (is_rule l).
  - destruct (Nat.eqb (S (separator_count st)) 2).
    + cbn [start_idx]. lia.
    + specialize (IH (S i) (mkLocals (S (separator_count st)) (start_idx st)
                                     (end_idx st) (Some l))).
      cbn [start_idx] in IH. lia.
  - specialize (IH (S i) (mkLocals (separator_count st) (start_idx st)
                                   (end_idx st) (Some l))).
    cbn [start_idx] in IH. lia.
Qed.

(** X15. The two indices of the slice are always in range and in order:
    after the scans, [start_idx] is at most [end_idx], which is at most the
    number of lines. *)
Theorem slice_indices_in_range (text : str) :
  exists st, scan (split LF (strip_markup text)) = Ok st /\
    (start_idx st <= end_idx st) /\
    (end_idx st <= List.length (split LF (strip_markup text))).
Proof.
  set (lines := split LF (strip_markup text)).
  assert (Hne : lines <> []) by apply split_not_nil.
  destruct (scan_spec Hne) as [l [_ H]].
  set (h := header_loop 0 lines (locals0 lines)) in *.
  assert (Hs : start_idx h <= List.length lines).
  { unfold h. apply (header_loop_start_le lines 0 (locals0 lines)). simpl. lia. }
  eexists. split; [exact H|]. cbn [start_idx end_idx].
  destruct (is_colophon l && (start_idx h <? List.length lines)); lia.
Qed.

(** ** Well-formed markup *)








(** The condition on the text of a note is needed: an opening ruby bracket
    inside a note lets the first substitution take the closing note bracket
    away, and the note opener stays. *)
Example note_with_open_ruby :
  clean_aozora_text
    ([NOTE_OPEN; NOTE_SHARP] ++ lit "a" ++ [RUBY_OPEN] ++ lit "b"
     ++ [NOTE_CLOSE] ++ lit "c" ++ [RUBY_CLOSE])
  = Ok ([NOTE_OPEN; NOTE_SHARP] ++ lit "a").
Proof. vm_compute. reflexivity. Qed.
